(** * gori: a shallow embedding of the repository-status aggregator

    Sources: package [main] (the [run] orchestrator, [isUpstreamed],
    [getLikelyUpstreamMainishBranch], [isBranchUpstreamed]) and package
    [gori] ([parseSnoozeDuration], [ApplySnooze], [isSnoozed],
    [ProjectStatus], [NewProject], [Clean]).

    The version-control backend (go-git) and the parts of the Go standard
    library the code calls are modelled by small executable definitions of
    their documented behaviour; the file-system and clock are parameters. *)

From Stdlib Require Import List String Ascii ZArith Lia Bool Btauto Sorted.
Import ListNotations.
Open Scope string_scope.

(* ------------------------------------------------------------------ *)
(** ** Errors and results *)

(** Go [error] values the code produces or compares.  [WrapError] is
    [fmt.Errorf("...: %w", err)], [ErrorString] is [errors.New] or
    [fmt.Errorf] without [%w].  The sentinels are go-git's
    [plumbing.ErrReferenceNotFound] and [plumbing.ErrObjectNotFound]. *)
Inductive error :=
| ErrReferenceNotFound
| ErrObjectNotFound
| ErrMaxResolveRecursion
| ErrorString (msg : string)
| WrapError (msg : string) (inner : error).

(** [err == plumbing.ErrReferenceNotFound]: identity comparison with the
    sentinel, as the Go code writes it (not [errors.Is]). *)
Definition is_ErrReferenceNotFound (e : error) : bool :=
  match e with ErrReferenceNotFound => true | _ => false end.

(** A Go [(T, error)] pair where only one side is meaningful. *)
Inductive result (A : Type) :=
| Ok (a : A)
| Err (e : error).
Arguments Ok {A} a.
Arguments Err {A} e.

(* ------------------------------------------------------------------ *)
(** ** String helpers *)

Fixpoint strip_prefix (p s : string) : option string :=
  match p, s with
  | EmptyString, _ => Some s
  | String a p', String b s' =>
      if Ascii.eqb a b then strip_prefix p' s' else None
  | String _ _, EmptyString => None
  end.

(** [fmt.Sscanf(s, prefix ++ "%s", &res)] succeeds (and sets [res]) when
    [s] starts with [prefix] and a non-empty word follows. *)
Definition scan_rule (prefix s : string) : option string :=
  match strip_prefix prefix s with
  | Some (String c r) => Some (String c r)
  | _ => None
  end.

(* ------------------------------------------------------------------ *)
(** ** go-git references *)

(** A reference name is its full name, e.g. ["refs/remotes/origin/main"]. *)
Definition ReferenceName := string.

Definition NewBranchReferenceName (n : string) : ReferenceName :=
  "refs/heads/" ++ n.

Definition NewRemoteReferenceName (remote n : string) : ReferenceName :=
  "refs/remotes/" ++ remote ++ "/" ++ n.

(** [ReferenceName.IsRemote]: [strings.HasPrefix(r, "refs/remotes/")]. *)
Definition IsRemote (n : ReferenceName) : bool :=
  String.prefix "refs/remotes/" n.

(** [ReferenceName.Short]: the rules ["refs/%s"], ["refs/tags/%s"],
    ["refs/heads/%s"], ["refs/remotes/%s"], ["refs/remotes/%s/HEAD"] are
    tried in turn and every rule that reads its [%s] overwrites the result
    (the last rule reads [%s] exactly when the previous one does, with the
    same value); a name matching none, such as ["HEAD"], is kept. *)
Definition Short (n : ReferenceName) : string :=
  let res := n in
  let res := match scan_rule "refs/" n with Some r => r | None => res end in
  let res := match scan_rule "refs/tags/" n with Some r => r | None => res end in
  let res := match scan_rule "refs/heads/" n with Some r => r | None => res end in
  let res := match scan_rule "refs/remotes/" n with Some r => r | None => res end in
  res.

Inductive RefTarget :=
| HashReference (h : nat)
| SymbolicReference (target : ReferenceName).

Record Reference := mkReference {
  ref_Name : ReferenceName;
  ref_Target : RefTarget
}.

(** A commit object: its hash and the hashes of its parents. *)
Record Commit := mkCommit {
  commit_Hash : nat;
  commit_Parents : list nat
}.

(** Working-tree status as [Worktree.Status] reports it. *)
Record Status := mkStatus {
  status_IsClean : bool;
  status_String : string
}.

Record Worktree := mkWorktree {
  wt_Status : result Status
}.

(** A repository as opened by [git.PlainOpen]: its reference store in
    enumeration order (the order [References()] yields them), its commit
    objects (each a hash with its parents' hashes) and its worktree. *)
Record Repository := mkRepository {
  repo_refs : list Reference;
  repo_objects : list (nat * list nat);
  repo_Worktree : result Worktree
}.

(** The object storer's lookup of a commit: its parents, or [None] when no
    commit with that hash is stored. *)
Fixpoint find_commit (objs : list (nat * list nat)) (h : nat) : option (list nat) :=
  match objs with
  | [] => None
  | (h', ps) :: objs' => if Nat.eqb h' h then Some ps else find_commit objs' h
  end.

Definition repo_commits (repo : Repository) : nat -> option (list nat) :=
  find_commit (repo_objects repo).

(** The reference storer's [Reference(name)]: the stored reference with
    that name, or [ErrReferenceNotFound]. *)
Fixpoint lookup_ref (refs : list Reference) (n : ReferenceName) : result Reference :=
  match refs with
  | [] => Err ErrReferenceNotFound
  | r :: rs => if String.eqb (ref_Name r) n then Ok r else lookup_ref rs n
  end.

(** [storer.resolveReference]: follow symbolic references, at most
    [MaxResolveRecursion] = 1024 times past the first. [fuel] is
    [1025 - recursion]. *)
Fixpoint resolveReference (refs : list Reference) (fuel : nat) (r : Reference)
  : result (ReferenceName * nat) :=
  match ref_Target r with
  | HashReference h => Ok (ref_Name r, h)
  | SymbolicReference t =>
      match fuel with
      | O => Err ErrMaxResolveRecursion
      | S f =>
          match lookup_ref refs t with
          | Err e => Err e
          | Ok r' => resolveReference refs f r'
          end
      end
  end.

Definition MaxResolveRecursion : nat := 1024.

(** [repo.Reference(name, true)] (= [storer.ResolveReference]): the
    resolved reference's name and hash. *)
Definition RepoReference (repo : Repository) (n : ReferenceName)
  : result (ReferenceName * nat) :=
  match lookup_ref (repo_refs repo) n with
  | Err e => Err e
  | Ok r => resolveReference (repo_refs repo) (S MaxResolveRecursion) r
  end.

(** [repo.Head()]: HEAD resolved; a detached HEAD is the reference
    named ["HEAD"] itself. *)
Definition Head (repo : Repository) : result (ReferenceName * nat) :=
  RepoReference repo "HEAD".

(** [repo.CommitObject(h)]. *)
Definition CommitObject (repo : Repository) (h : nat) : result Commit :=
  match repo_commits repo h with
  | Some ps => Ok (mkCommit h ps)
  | None => Err ErrObjectNotFound
  end.

(** [Commit.IsAncestor]: a pre-order walk from [other] through parent
    links looking for [c]'s hash; a parent that cannot be loaded ends the
    walk with [ErrObjectNotFound].  The walk is given [S (hash other)]
    steps: in a repository whose hashes number the commits
    topologically (see [well_formed] below) this never runs out. *)
(** Visit the parents in order, stopping at the first that leads to the
    target or fails to load. *)
Fixpoint visit_parents (visit : nat -> result bool) (ps : list nat) : result bool :=
  match ps with
  | [] => Ok false
  | p :: ps' =>
      match visit p with
      | Ok true => Ok true
      | Ok false => visit_parents visit ps'
      | Err e => Err e
      end
  end.

Fixpoint walk (commits : nat -> option (list nat)) (fuel : nat) (target x : nat)
  : result bool :=
  match fuel with
  | O => Ok false
  | S f =>
      if Nat.eqb x target then Ok true
      else
        match commits x with
        | None => Err ErrObjectNotFound
        | Some ps => visit_parents (walk commits f target) ps
        end
  end.

Definition IsAncestor (repo : Repository) (c other : Commit) : result bool :=
  walk (repo_commits repo) (S (commit_Hash other)) (commit_Hash c) (commit_Hash other).

(* ------------------------------------------------------------------ *)
(** ** Upstream Resolver: [isBranchUpstreamed] *)

Definition isBranchUpstreamed (repo : Repository) (localBranchName remoteBranchName : string)
  : bool * option error :=
  match RepoReference repo (NewBranchReferenceName localBranchName) with
  | Err e => (false, Some (WrapError "could not get local branch: " e))
  | Ok (_, lh) =>
      match CommitObject repo lh with
      | Err e => (false, Some e)
      | Ok lObject =>
          match RepoReference repo (NewRemoteReferenceName "origin" remoteBranchName) with
          | Err e => (false, Some e)
          | Ok (_, rh) =>
              match CommitObject repo rh with
              | Err e =>
                  (false, Some (WrapError ("cannot get remoteRef, origin/" ++ remoteBranchName ++ " by hash: ") e))
              | Ok rObject =>
                  match IsAncestor repo lObject rObject with
                  | Ok b => (b, None)
                  | Err e => (false, Some e)
                  end
              end
          end
      end
  end.

(* ------------------------------------------------------------------ *)
(** ** Mainish-Branch Locator: [getLikelyUpstreamMainishBranch] *)

(** The body of the [ForEach] callback, threading [mainish]. *)
Definition mainish_visit (mainish : string) (r : Reference) : string :=
  if IsRemote (ref_Name r) then
    let mainish := if String.eqb (Short (ref_Name r)) "origin/master" then "master" else mainish in
    let mainish := if String.eqb (Short (ref_Name r)) "origin/main" then "main" else mainish in
    mainish
  else mainish.

Definition getLikelyUpstreamMainishBranch (repo : Repository) : result string :=
  let mainish := fold_left mainish_visit (repo_refs repo) "" in
  if String.eqb mainish "" then Err (ErrorString "neither main nor master branch exists")
  else Ok mainish.

(* ------------------------------------------------------------------ *)
(** ** Per-Project Status Evaluator: [isUpstreamed] *)

(** [isUpstreamed], written against the resolver and the locator it
    calls, so that what it does not call is visible in its type.  The
    diagnostics it prints do not affect the result and are left out. *)
Section IsUpstreamed.
Variable branchUpstreamed : string -> string -> bool * option error.
Variable likelyMainish : result string.

Definition isUpstreamed_with (head : result (ReferenceName * nat)) : bool :=
  match head with
  | Err _ => false
  | Ok (name, _) =>
      if String.eqb (Short name) "HEAD" then false
      else
        let b := Short name in
        let (isUp, _) := branchUpstreamed b b in
        if isUp then true
        else
          match likelyMainish with
          | Err _ => false
          | Ok mainish =>
              let (isUp2, err) := branchUpstreamed b mainish in
              match err with
              | Some e => if negb (is_ErrReferenceNotFound e) then false else false
              | None => if negb isUp2 then false else true
              end
          end
  end.
End IsUpstreamed.

Definition isUpstreamed (repo : Repository) (repoPath : string) : bool :=
  isUpstreamed_with (isBranchUpstreamed repo) (getLikelyUpstreamMainishBranch repo) (Head repo).

(* ------------------------------------------------------------------ *)
(** ** Data model: [ProjectStatus] *)

Record ProjectStatus := mkProjectStatus {
  Path : string;
  IsDirty : bool;
  HasStash : bool;
  Upstreamed : bool;
  isDirtySnoozed : bool;
  hasStashSnoozed : bool;
  upstreamedSnoozed : bool;
  StatusString : string
}.

(** The zero value [gori.ProjectStatus{}]. *)
Definition ProjectStatus_zero : ProjectStatus :=
  mkProjectStatus "" false false false false false false "".

Definition NewProject (path : string) (isDirty hasStash upstreamed : bool) : ProjectStatus :=
  mkProjectStatus path isDirty hasStash upstreamed false false false "".

Definition Clean (p : ProjectStatus) : bool :=
  negb (IsDirty p || HasStash p || negb (Upstreamed p)).

(** Field assignments [project.F = v]. *)
Definition set_dirty (p : ProjectStatus) (isDirty snoozed : bool) : ProjectStatus :=
  mkProjectStatus (Path p) isDirty (HasStash p) (Upstreamed p)
    snoozed (hasStashSnoozed p) (upstreamedSnoozed p) (StatusString p).

Definition set_stash (p : ProjectStatus) (hasStash snoozed : bool) : ProjectStatus :=
  mkProjectStatus (Path p) (IsDirty p) hasStash (Upstreamed p)
    (isDirtySnoozed p) snoozed (upstreamedSnoozed p) (StatusString p).

Definition set_upstreamed (p : ProjectStatus) (upstreamed snoozed : bool) : ProjectStatus :=
  mkProjectStatus (Path p) (IsDirty p) (HasStash p) upstreamed
    (isDirtySnoozed p) (hasStashSnoozed p) snoozed (StatusString p).

Definition set_StatusString (p : ProjectStatus) (s : string) : ProjectStatus :=
  mkProjectStatus (Path p) (IsDirty p) (HasStash p) (Upstreamed p)
    (isDirtySnoozed p) (hasStashSnoozed p) (upstreamedSnoozed p) s.

(* ------------------------------------------------------------------ *)
(** ** Suppression store: [IgnoreConfig] *)

(** An omitted timestamp decodes to the empty string. *)
Record Snooze := mkSnooze {
  DirtyWorkdir : string;
  Stashes : string;
  NotUpstreamed : string
}.

Record RepoEntry := mkRepoEntry {
  entry_Path : string;
  entry_Snooze : Snooze
}.

Record IgnoreConfig := mkIgnoreConfig {
  Repos : list RepoEntry
}.

(* ------------------------------------------------------------------ *)
(** ** Suppression Engine: [ApplySnooze], [isSnoozed] *)

Section Snoozing.
(** [path/filepath] as the process sees it. *)
Variable filepath_IsAbs : string -> bool.
Variable filepath_Abs : string -> string.
Variable filepath_Join : string -> string -> string.
Variable filepath_Clean : string -> string.
(** [time.Parse(time.DateTime, s)]: the instant, or [None] on a parse
    error; and [time.Now()] at evaluation time. *)
Variable time_Parse : string -> option Z.
Variable time_Now : Z.

(** [isSnoozed]: [time.Now().Before(t)]; unparsable timestamps are not
    snoozed. *)
Definition isSnoozed (snoozeTime : string) : bool :=
  match time_Parse snoozeTime with
  | None => false
  | Some t => Z.ltb time_Now t
  end.

(** The body of the [if resolvedPath == absRepoPath] block. *)
Definition snooze_entry (project : ProjectStatus) (repo : RepoEntry) : ProjectStatus :=
  let s := entry_Snooze repo in
  let project :=
    if IsDirty project && negb (String.eqb (DirtyWorkdir s) "") then
      if isSnoozed (DirtyWorkdir s) then set_dirty project false true else project
    else project in
  let project :=
    if HasStash project && negb (String.eqb (Stashes s) "") then
      if isSnoozed (Stashes s) then set_stash project false true else project
    else project in
  let project :=
    if negb (Upstreamed project) && negb (String.eqb (NotUpstreamed s) "") then
      if isSnoozed (NotUpstreamed s) then set_upstreamed project true true else project
    else project in
  project.

(** Whether an entry's path resolves to [repoPath]. *)
Definition entry_matches (repoPath scanPath : string) (repo : RepoEntry) : bool :=
  let ignoreFileDir := if filepath_IsAbs scanPath then scanPath else filepath_Abs scanPath in
  let resolvedPath := filepath_Clean (filepath_Join ignoreFileDir (entry_Path repo)) in
  let absRepoPath := filepath_Clean (filepath_Abs repoPath) in
  String.eqb resolvedPath absRepoPath.

(** [ApplySnooze] updates [*project] in place; here it returns the new
    value.  [config] is [None] for a nil [*IgnoreConfig]. *)
Definition ApplySnooze (repoPath : string) (project : ProjectStatus)
    (config : option IgnoreConfig) (scanPath : string) : ProjectStatus :=
  match config with
  | None => project
  | Some cfg =>
      fold_left
        (fun project repo =>
           if entry_matches repoPath scanPath repo then snooze_entry project repo
           else project)
        (Repos cfg) project
  end.
End Snoozing.

(* ------------------------------------------------------------------ *)
(** ** Duration specification: [parseSnoozeDuration] *)

Local Open Scope Z_scope.

(** [time.Duration] is an [int64] count of nanoseconds. *)
Definition Nanosecond : Z := 1.
Definition Microsecond : Z := 1000.
Definition Millisecond : Z := 1000000.
Definition Second : Z := 1000000000.
Definition Minute : Z := 60 * Second.
Definition Hour : Z := 60 * Minute.

(** Two's-complement wrap-around of a 64-bit signed product. *)
Definition wrap64 (z : Z) : Z :=
  let m := z mod 2 ^ 64 in
  if Z.leb (2 ^ 63) m then m - 2 ^ 64 else m.

Definition is_digit (c : ascii) : bool :=
  let n := nat_of_ascii c in Nat.leb 48 n && Nat.leb n 57.

Definition digit_value (c : ascii) : Z := Z.of_nat (nat_of_ascii c) - 48.

(** [strings.TrimSpace] and [strings.ToLower] on ASCII input (the
    Unicode white space and case mappings beyond ASCII are not modelled). *)
Definition is_space (c : ascii) : bool :=
  let n := nat_of_ascii c in
  Nat.eqb n 32 || (Nat.leb 9 n && Nat.leb n 13).

Fixpoint trim_left (s : string) : string :=
  match s with
  | String c s' => if is_space c then trim_left s' else s
  | EmptyString => EmptyString
  end.

Fixpoint rev_string (s : string) (acc : string) : string :=
  match s with
  | String c s' => rev_string s' (String c acc)
  | EmptyString => acc
  end.

Definition TrimSpace (s : string) : string :=
  rev_string (trim_left (rev_string (trim_left s) EmptyString)) EmptyString.

Definition to_lower_ascii (c : ascii) : ascii :=
  let n := nat_of_ascii c in
  if Nat.leb 65 n && Nat.leb n 90 then ascii_of_nat (n + 32) else c.

Fixpoint ToLower (s : string) : string :=
  match s with
  | String c s' => String (to_lower_ascii c) (ToLower s')
  | EmptyString => EmptyString
  end.

(** [strconv.Quote] of a plain ASCII string. *)
Definition dquote : string := String (ascii_of_nat 34) EmptyString.
Definition quote (s : string) : string := dquote ++ s ++ dquote.

(** [time.leadingInt]: [None] on overflow past [1<<63]. *)
Fixpoint leadingInt (x : Z) (s : string) : option (Z * string) :=
  match s with
  | String c s' =>
      if is_digit c then
        if Z.ltb (2 ^ 63 / 10) x then None
        else
          let x := x * 10 + digit_value c in
          if Z.ltb (2 ^ 63) x then None else leadingInt x s'
      else Some (x, s)
  | EmptyString => Some (x, s)
  end.

(** [time.leadingFraction]: digits after the point, the power of ten
    they are scaled by, and the rest; digits past overflow are skipped. *)
Fixpoint leadingFraction (x scale : Z) (overflow : bool) (s : string) : Z * Z * string :=
  match s with
  | String c s' =>
      if is_digit c then
        if overflow then leadingFraction x scale true s'
        else if Z.ltb ((2 ^ 63 - 1) / 10) x then leadingFraction x scale true s'
        else
          let y := x * 10 + digit_value c in
          if Z.ltb (2 ^ 63) y then leadingFraction x scale true s'
          else leadingFraction y (scale * 10) false s'
      else (x, scale, s)
  | EmptyString => (x, scale, s)
  end.

(** Split off the unit: the longest prefix with no ['.'] and no digit. *)
Fixpoint split_unit (s : string) : string * string :=
  match s with
  | String c s' =>
      if is_digit c || Ascii.eqb c "." then (EmptyString, s)
      else let (u, r) := split_unit s' in (String c u, r)
  | EmptyString => (EmptyString, EmptyString)
  end.

(** [time.unitMap]; the micro sign (U+00B5) and Greek mu (U+03BC) are
    written as their UTF-8 bytes. *)
Definition micro_sign_s : string :=
  String (ascii_of_nat 194) (String (ascii_of_nat 181) (String "s" EmptyString)).
Definition greek_mu_s : string :=
  String (ascii_of_nat 206) (String (ascii_of_nat 188) (String "s" EmptyString)).

Definition unitMap (u : string) : option Z :=
  if String.eqb u "ns" then Some Nanosecond
  else if String.eqb u "us" then Some Microsecond
  else if String.eqb u micro_sign_s then Some Microsecond
  else if String.eqb u greek_mu_s then Some Microsecond
  else if String.eqb u "ms" then Some Millisecond
  else if String.eqb u "s" then Some Second
  else if String.eqb u "m" then Some Minute
  else if String.eqb u "h" then Some Hour
  else None.

(** One iteration of the [for s != ""] loop of [time.ParseDuration]:
    the new total [d] and the rest of the input.  The fraction term
    [uint64(float64(f) * (float64(unit) / scale))] is computed exactly
    here, as [f * unit / scale] rounded down. *)
Definition pd_component (orig : string) (d : Z) (s : string) : result (Z * string) :=
  let invalid := Err (ErrorString ("time: invalid duration " ++ quote orig)) in
  match s with
  | EmptyString => Ok (d, s)
  | String c0 _ =>
      if negb (Ascii.eqb c0 "." || is_digit c0) then invalid
      else
        match leadingInt 0 s with
        | None => invalid
        | Some (v, s1) =>
            let pre := negb (Nat.eqb (String.length s) (String.length s1)) in
            let '(f, scale, s2, post) :=
              match s1 with
              | String c s1' =>
                  if Ascii.eqb c "." then
                    let '(f, scale, s2) := leadingFraction 0 1 false s1' in
                    (f, scale, s2, negb (Nat.eqb (String.length s1') (String.length s2)))
                  else (0, 1, s1, false)
              | EmptyString => (0, 1, s1, false)
              end in
            if negb pre && negb post then invalid
            else
              let (u, s3) := split_unit s2 in
              if String.eqb u "" then
                Err (ErrorString ("time: missing unit in duration " ++ quote orig))
              else
                match unitMap u with
                | None =>
                    Err (ErrorString ("time: unknown unit " ++ quote u ++ " in duration " ++ quote orig))
                | Some unit =>
                    if Z.ltb (2 ^ 63 / unit) v then invalid
                    else
                      let v := v * unit in
                      let v := if Z.ltb 0 f then v + f * unit / scale else v in
                      if Z.ltb (2 ^ 63) v then invalid
                      else
                        let d := d + v in
                        if Z.ltb (2 ^ 63) d then invalid else Ok (d, s3)
                end
        end
  end.

(** The loop itself; each iteration consumes at least one byte, so
    [String.length s] iterations suffice. *)
Fixpoint pd_loop (orig : string) (fuel : nat) (d : Z) (s : string) : result Z :=
  match s with
  | EmptyString => Ok d
  | String _ _ =>
      match fuel with
      | O => Ok d
      | S f =>
          match pd_component orig d s with
          | Err e => Err e
          | Ok (d', s') => pd_loop orig f d' s'
          end
      end
  end.

(** [time.ParseDuration]. *)
Definition ParseDuration (orig : string) : result Z :=
  let '(neg, s) :=
    match orig with
    | String c s' => if Ascii.eqb c "-" then (true, s') else if Ascii.eqb c "+" then (false, s') else (false, orig)
    | EmptyString => (false, orig)
    end in
  if String.eqb s "0" then Ok 0
  else if String.eqb s "" then Err (ErrorString ("time: invalid duration " ++ quote orig))
  else
    match pd_loop orig (String.length s) 0 s with
    | Err e => Err e
    | Ok d =>
        if neg then Ok (- d)
        else if Z.ltb (2 ^ 63 - 1) d then Err (ErrorString ("time: invalid duration " ++ quote orig))
        else Ok d
    end.

(** [regexp.MustCompile(`^(\d+)([dwmy])$`).FindStringSubmatch]: the two
    groups, or [None] when there is no match. *)
Definition all_digits (s : string) : bool :=
  forallb is_digit (list_ascii_of_string s).

Definition FindStringSubmatch_dwmy (s : string) : option (string * string) :=
  let n := String.length s in
  if Nat.ltb n 2 then None
  else
    let digits := substring 0 (n - 1) s in
    let u := substring (n - 1) 1 s in
    if all_digits digits
       && (String.eqb u "d" || String.eqb u "w" || String.eqb u "m" || String.eqb u "y")
    then Some (digits, u) else None.

Fixpoint digits_value (acc : Z) (s : string) : Z :=
  match s with
  | String c s' => digits_value (acc * 10 + digit_value c) s'
  | EmptyString => acc
  end.

(** [strconv.Atoi] on a string of decimal digits. *)
Definition Atoi (s : string) : result Z :=
  let v := digits_value 0 s in
  if Z.ltb (2 ^ 63 - 1) v
  then Err (ErrorString ("strconv.Atoi: parsing " ++ quote s ++ ": value out of range"))
  else Ok v.

Definition parseSnoozeDuration (durationStr : string) : result Z :=
  let durationStr := TrimSpace (ToLower durationStr) in
  match ParseDuration durationStr with
  | Ok d => Ok d
  | Err _ =>
      match FindStringSubmatch_dwmy durationStr with
      | None =>
          Err (ErrorString ("invalid duration format: " ++ durationStr
                             ++ ". Use formats like 1h, 2d, 3w, 4m, 5y"))
      | Some (m1, m2) =>
          match Atoi m1 with
          | Err e => Err e
          | Ok value =>
              if String.eqb m2 "d" then Ok (wrap64 (Hour * 24 * value))
              else if String.eqb m2 "w" then Ok (wrap64 (Hour * 24 * 7 * value))
              else if String.eqb m2 "m" then Ok (wrap64 (Hour * 24 * 30 * value))
              else if String.eqb m2 "y" then Ok (wrap64 (Hour * 24 * 365 * value))
              else Err (ErrorString ("unsupported duration unit: " ++ m2))
          end
      end
  end.

Local Open Scope nat_scope.

(* ------------------------------------------------------------------ *)
(** ** Scan Orchestrator: [run] *)

(** One entry of [os.ReadDir(scanPath)]. *)
Record DirEntry := mkDirEntry {
  de_Name : string;
  de_IsDir : bool
}.

(** [slices.Sort] on strings: Go's [<] on strings is byte-wise
    lexicographic, which is [String.compare]. *)
Fixpoint insert_sorted (x : string) (l : list string) : list string :=
  match l with
  | [] => [x]
  | y :: l' => if String.leb x y then x :: l else y :: insert_sorted x l'
  end.

Fixpoint sort_strings (l : list string) : list string :=
  match l with
  | [] => []
  | x :: l' => insert_sorted x (sort_strings l')
  end.

Record repoResult := mkRepoResult {
  rr_status : ProjectStatus;
  rr_err : option error
}.

Section Run.
(** The process's environment: [git.PlainOpen], the [os.Stat] behind
    [checkForStashes], and [path/filepath] and [time] as in
    [ApplySnooze]. *)
Variable PlainOpen : string -> result Repository.
Variable stash_exists : string -> bool.
Variable filepath_IsAbs : string -> bool.
Variable filepath_Abs : string -> string.
Variable filepath_Join : string -> string -> string.
Variable filepath_Clean : string -> string.
Variable time_Parse : string -> option Z.
Variable time_Now : Z.
(** The command line and the loaded ignore configuration. *)
Variable showChanges : bool.
Variable ignoreConfig : option IgnoreConfig.
Variable scanPath : string.

(** [checkForStashes]: [os.Stat(filepath.Join(repoPath, ".git", "refs", "stash"))]. *)
Definition checkForStashes (repoPath : string) : bool :=
  stash_exists repoPath.

(** [repoPaths]: the directories of [os.ReadDir(scanPath)], joined to
    [scanPath], then sorted. *)
Definition repoPaths (files : list DirEntry) : list string :=
  sort_strings
    (map (fun f => filepath_Join scanPath (de_Name f)) (filter de_IsDir files)).

(** What the worker goroutine for [repoPath] stores in [results]. *)
Definition worker (repoPath : string) : repoResult :=
  match PlainOpen repoPath with
  | Err e => mkRepoResult ProjectStatus_zero (Some (WrapError "opening repo: " e))
  | Ok repo =>
      match repo_Worktree repo with
      | Err e => mkRepoResult ProjectStatus_zero (Some (WrapError "getting worktree: " e))
      | Ok wt =>
          match wt_Status wt with
          | Err e => mkRepoResult ProjectStatus_zero (Some (WrapError "getting repo status: " e))
          | Ok status =>
              let project :=
                NewProject repoPath (negb (status_IsClean status))
                  (checkForStashes repoPath) (isUpstreamed repo repoPath) in
              let project :=
                if negb (Clean project) then
                  let project :=
                    ApplySnooze filepath_IsAbs filepath_Abs filepath_Join filepath_Clean
                      time_Parse time_Now repoPath project ignoreConfig scanPath in
                  if IsDirty project && showChanges
                  then set_StatusString project (status_String status)
                  else project
                else project in
              mkRepoResult project None
          end
      end
  end.
End Run.

(** The consumer loop's body once [done[repoPath]] holds: what it adds
    to [projectsToVisit] (each such project is also displayed). *)
Definition consume (found : option repoResult) : list ProjectStatus :=
  match found with
  | Some result =>
      match rr_err result with
      | None =>
          let project := rr_status result in
          if IsDirty project || HasStash project || negb (Upstreamed project)
          then [project] else []
      | Some _ => []
      end
  | None => []
  end.

(** [results[p]] on the shared map; a later write shadows an earlier one. *)
Fixpoint lookup_result (results : list (string * repoResult)) (p : string)
  : option repoResult :=
  match results with
  | [] => None
  | (q, r) :: rs => if String.eqb q p then Some r else lookup_result rs p
  end.

(** The state shared by the feeder, the workers and the consumer.  A
    worker for a path moves through [running] (holding a semaphore
    permit), [stored] (result written to [results]), [released] (permit
    returned by the deferred [<-sem]) and [finished] ([done[path]] set
    and broadcast).  [remaining] is what the consumer still has to wait
    for; [visited] is [projectsToVisit]. *)
Record ScanState := mkScanState {
  to_launch : list string;
  running : list string;
  stored : list string;
  released : list string;
  finished : list string;
  results : list (string * repoResult);
  remaining : list string;
  visited : list ProjectStatus
}.

Definition scan_init (paths : list string) : ScanState :=
  mkScanState paths [] [] [] [] [] paths [].

Section Scheduler.
(** The result each worker stores for its path ([worker] above). *)
Variable eval : string -> repoResult.
(** The capacity of [sem]. *)
Variable concurrency : nat.

(** One atomic step of [run]; the scheduler picks any enabled step, so
    workers may finish in any order. *)
Inductive scan_step : ScanState -> ScanState -> Prop :=
| step_launch p ps r s l f res rem v :
    List.length r + List.length s < concurrency ->
    scan_step (mkScanState (p :: ps) r s l f res rem v)
              (mkScanState ps (p :: r) s l f res rem v)
| step_store t r1 p r2 s l f res rem v :
    scan_step (mkScanState t (r1 ++ p :: r2) s l f res rem v)
              (mkScanState t (r1 ++ r2) (p :: s) l f ((p, eval p) :: res) rem v)
| step_release t r s1 p s2 l f res rem v :
    scan_step (mkScanState t r (s1 ++ p :: s2) l f res rem v)
              (mkScanState t r (s1 ++ s2) (p :: l) f res rem v)
| step_finish t r s l1 p l2 f res rem v :
    scan_step (mkScanState t r s (l1 ++ p :: l2) f res rem v)
              (mkScanState t r s (l1 ++ l2) (p :: f) res rem v)
| step_consume t r s l f res p rem v :
    In p f ->
    scan_step (mkScanState t r s l f res (p :: rem) v)
              (mkScanState t r s l f res rem (v ++ consume (lookup_result res p))).

Inductive scan_reach (st0 : ScanState) : ScanState -> Prop :=
| reach_refl : scan_reach st0 st0
| reach_step st st' : scan_reach st0 st -> scan_step st st' -> scan_reach st0 st'.

(** What the consumer adds for the paths it has waited for. *)
Definition expected (paths : list string) : list ProjectStatus :=
  flat_map (fun p => consume (Some (eval p))) paths.
End Scheduler.

(* ------------------------------------------------------------------ *)
(** ** Commit history *)

(** [reachable commits x y]: [y] is reached from the stored commit [x] by
    walking zero or more parent links through stored commits. *)
Inductive reachable (commits : nat -> option (list nat)) : nat -> nat -> Prop :=
| reachable_self x ps : commits x = Some ps -> reachable commits x x
| reachable_parent x ps p y :
    commits x = Some ps -> In p ps -> reachable commits p y -> reachable commits x y.

(** A well-formed object store: every parent of a stored commit is
    stored, and hashes number the history topologically (a parent's
    number is below its child's), which any acyclic history admits. *)
Definition well_formed (objs : list (nat * list nat)) : bool :=
  forallb (fun '(h, ps) =>
             forallb (fun p => Nat.ltb p h && match find_commit objs p with Some _ => true | None => false end) ps) objs.

(** Following the spec's words (4.3): the order in which the evaluator
    settles [upstreamed] for a checked-out branch [b], given the resolver
    and the locator. *)
Definition spec_upstreamed_order
    (branchUpstreamed : string -> string -> bool * option error)
    (likelyMainish : result string) (b : string) : bool :=
  fst (branchUpstreamed b b)
  || match likelyMainish with
     | Err _ => false
     | Ok mainish =>
         match branchUpstreamed b mainish with
         | (isUp, None) => isUp
         | (_, Some _) => false
         end
     end.

(** One scheduling decision, to replay a particular interleaving of [run]:
    the feeder launches the next worker, the [i]-th worker of a phase
    moves on, or the consumer takes the next path. *)
Inductive Action :=
| Launch
| Store (i : nat)
| Release (i : nat)
| Finish (i : nat)
| Consume.

Definition remove_nth {A} (i : nat) (l : list A) : list A :=
  firstn i l ++ skipn (S i) l.

Section Schedule.
Variable eval : string -> repoResult.
Variable concurrency : nat.

Definition exec_action (a : Action) (st : ScanState) : option ScanState :=
  let '(mkScanState t r s l f res rem v) := st in
  match a with
  | Launch =>
      match t with
      | p :: ps =>
          if Nat.ltb (List.length r + List.length s) concurrency
          then Some (mkScanState ps (p :: r) s l f res rem v) else None
      | [] => None
      end
  | Store i =>
      match nth_error r i with
      | Some p => Some (mkScanState t (remove_nth i r) (p :: s) l f ((p, eval p) :: res) rem v)
      | None => None
      end
  | Release i =>
      match nth_error s i with
      | Some p => Some (mkScanState t r (remove_nth i s) (p :: l) f res rem v)
      | None => None
      end
  | Finish i =>
      match nth_error l i with
      | Some p => Some (mkScanState t r s (remove_nth i l) (p :: f) res rem v)
      | None => None
      end
  | Consume =>
      match rem with
      | p :: rem' =>
          if existsb (String.eqb p) f
          then Some (mkScanState t r s l f res rem' (v ++ consume (lookup_result res p)))
          else None
      | [] => None
      end
  end.

Fixpoint exec_schedule (acts : list Action) (st : ScanState) : option ScanState :=
  match acts with
  | [] => Some st
  | a :: acts' =>
      match exec_action a st with
      | Some st' => exec_schedule acts' st'
      | None => None
      end
  end.
End Schedule.

(** Whether [git.PlainOpen], [repo.Worktree()] and [wt.Status()] all
    succeed for a path. *)
Definition opens_with_status (PlainOpen : string -> result Repository) (p : string) : bool :=
  match PlainOpen p with
  | Err _ => false
  | Ok repo =>
      match repo_Worktree repo with
      | Err _ => false
      | Ok wt => match wt_Status wt with Err _ => false | Ok _ => true end
      end
  end.

(* ------------------------------------------------------------------ *)
(** ** Display: [displayProjectStatus] *)

(** The three status emojis as their UTF-8 bytes: U+1F6A7, U+1F5C4
    U+FE0F and U+1F4E4. *)
Definition emoji_dirty : string :=
  String (ascii_of_nat 240) (String (ascii_of_nat 159) (String (ascii_of_nat 154)
    (String (ascii_of_nat 167) EmptyString))).
Definition emoji_stash : string :=
  String (ascii_of_nat 240) (String (ascii_of_nat 159) (String (ascii_of_nat 151)
    (String (ascii_of_nat 132) (String (ascii_of_nat 239) (String (ascii_of_nat 184)
    (String (ascii_of_nat 143) EmptyString)))))).
Definition emoji_outbox : string :=
  String (ascii_of_nat 240) (String (ascii_of_nat 159) (String (ascii_of_nat 147)
    (String (ascii_of_nat 164) EmptyString))).

(** [displayProjectStatus], with [filepath.Base] a parameter: the line
    it prints, or [None] when it prints nothing. *)
Definition displayProjectStatus (filepath_Base : string -> string) (project : ProjectStatus)
  : option string :=
  let displayName := filepath_Base (Path project) in
  let statusLine := displayName ++ ": " in
  let statusLine := if IsDirty project then statusLine ++ emoji_dirty else statusLine in
  let statusLine := if HasStash project then statusLine ++ emoji_stash else statusLine in
  let statusLine :=
    if negb (IsDirty project) && negb (Upstreamed project) then statusLine ++ emoji_outbox
    else statusLine in
  if negb (String.eqb statusLine (Path project ++ ": ")) then Some statusLine else None.

(* ------------------------------------------------------------------ *)
(** ** Recording a snooze: [SnoozeCheck], [getRelativePath] *)

(** [getRelativePath], with [filepath.Abs] (its error ignored, as the
    code does) and [filepath.Rel] as parameters. *)
Definition getRelativePath (filepath_Abs : string -> string)
    (filepath_Rel : string -> string -> result string)
    (projectPath scanPath : string) : string :=
  let absProjectPath := filepath_Abs projectPath in
  let absScanPath := filepath_Abs scanPath in
  match filepath_Rel absScanPath absProjectPath with
  | Err _ => projectPath
  | Ok relPath => relPath
  end.

(** The [if check == "all" ... else switch check] assignments to one
    entry's [Snooze]. *)
Definition set_check (check snoozeUntil : string) (s : Snooze) : Snooze :=
  if String.eqb check "all" then mkSnooze snoozeUntil snoozeUntil snoozeUntil
  else if String.eqb check "dirty" then mkSnooze snoozeUntil (Stashes s) (NotUpstreamed s)
  else if String.eqb check "stash" then mkSnooze (DirtyWorkdir s) snoozeUntil (NotUpstreamed s)
  else if String.eqb check "upstream" then mkSnooze (DirtyWorkdir s) (Stashes s) snoozeUntil
  else s.

(** The [for i, repo := range config.Repos] loop: the first entry whose
    [Path] equals [project.Path] is updated in place ([found]), or
    [None] when there is none. *)
Fixpoint update_first (path check snoozeUntil : string) (repos : list RepoEntry)
  : option (list RepoEntry) :=
  match repos with
  | [] => None
  | r :: rs =>
      if String.eqb (entry_Path r) path
      then Some (mkRepoEntry (entry_Path r) (set_check check snoozeUntil (entry_Snooze r)) :: rs)
      else match update_first path check snoozeUntil rs with
           | Some rs' => Some (r :: rs')
           | None => None
           end
  end.

Definition validChecks : list string := ["dirty"; "stash"; "upstream"; "all"].

(** What [SnoozeCheck] ends in: a message, or the configuration it
    encodes and writes to [.goriignore.cue]. *)
Inductive snooze_outcome :=
| InvalidCheck
| InvalidDuration (e : error)
| WriteConfig (cfg : IgnoreConfig).

Section SnoozeCheckSec.
(** [LoadIgnoreConfig(scanPath)], [filepath.Abs], [filepath.Rel], and
    [time.Now().Add(d).Format(time.DateTime)] as a function of [d]. *)
Variable LoadIgnoreConfig : string -> result IgnoreConfig.
Variable filepath_Abs : string -> string.
Variable filepath_Rel : string -> string -> result string.
Variable snoozeUntil_after : Z -> string.

Definition SnoozeCheck (project : ProjectStatus) (durationStr check scanPath : string)
  : snooze_outcome :=
  let config :=
    match LoadIgnoreConfig scanPath with Ok c => c | Err _ => mkIgnoreConfig [] end in
  if negb (existsb (String.eqb check) validChecks) then InvalidCheck
  else
    match parseSnoozeDuration durationStr with
    | Err e => InvalidDuration e
    | Ok duration =>
        let snoozeUntil := snoozeUntil_after duration in
        match update_first (Path project) check snoozeUntil (Repos config) with
        | Some repos => WriteConfig (mkIgnoreConfig repos)
        | None =>
            let newRepo :=
              mkRepoEntry (getRelativePath filepath_Abs filepath_Rel (Path project) scanPath)
                (set_check check snoozeUntil (mkSnooze "" "" "")) in
            WriteConfig (mkIgnoreConfig (app (Repos config) [newRepo]))
        end
    end.
End SnoozeCheckSec.

(* ------------------------------------------------------------------ *)
(** ** The interactive walk: [visitProjects] *)

(** [strings.Fields] on ASCII white space. *)
Fixpoint Fields_aux (s word : string) : list string :=
  match s with
  | EmptyString => if String.eqb word "" then [] else [word]
  | String c s' =>
      if is_space c then
        if String.eqb word "" then Fields_aux s' "" else word :: Fields_aux s' ""
      else Fields_aux s' (word ++ String c EmptyString)
  end.

Definition Fields (s : string) : list string := Fields_aux s "".

(** [reader.ReadString('\n')] on standard input given as the chunks it
    returns; once the input is exhausted every call returns [""] (and
    [io.EOF], which the code ignores). *)
Definition ReadString (input : list string) : string * list string :=
  match input with
  | [] => ("", [])
  | l :: rest => (l, rest)
  end.

(** What one round of the prompt loop does besides printing the prompt. *)
Inductive visit_event :=
| ev_Prompt (i n : nat) (name : string)
| ev_Status (status : string)
| ev_Usage
| ev_Snooze (project : ProjectStatus) (durationStr check : string)
| ev_Shell (dir : string)
| ev_Invalid.

(** How a project's loop ends: [break project] (["n"]), [return] (["q"]),
    or a nil-pointer panic in the ["s"] command. *)
Inductive visit_exit := ex_Next | ex_Quit | ex_Panic.

Section Visit.
Variable PlainOpen : string -> result Repository.
Variable filepath_Base : string -> string.

(** The [project:] loop for project [i] of [n], with at most [fuel]
    rounds; [None] when it needs more. *)
Fixpoint visit_project (fuel : nat) (i n : nat) (project : ProjectStatus) (input : list string)
  : option (visit_exit * list visit_event * list string) :=
  match fuel with
  | O => None
  | S f =>
      let prompt := ev_Prompt (i + 1) n (filepath_Base (Path project)) in
      let '(line, input) := ReadString input in
      let parts := Fields (TrimSpace (ToLower line)) in
      let continue_with evs :=
        match visit_project f i n project input with
        | Some (x, evs', input') => Some (x, app (prompt :: evs) evs', input')
        | None => None
        end in
      match parts with
      | [] => continue_with []
      | command :: args =>
          if String.eqb command "s" then
            (* [repo.Worktree()] on a nil repository, or [wt.Status()] on a
               nil worktree, dereferences nil. *)
            match PlainOpen (Path project) with
            | Err _ => Some (ex_Panic, [prompt], input)
            | Ok repo =>
                match repo_Worktree repo with
                | Err _ => Some (ex_Panic, [prompt], input)
                | Ok wt =>
                    let status := match wt_Status wt with Ok st => status_String st | Err _ => "" end in
                    continue_with [ev_Status status]
                end
            end
          else if String.eqb command "i" then
            match args with
            | [] => continue_with [ev_Usage]
            | durationStr :: more =>
                let check := match more with c :: _ => c | [] => "all" end in
                continue_with [ev_Snooze project durationStr check]
            end
          else if String.eqb command "n" then Some (ex_Next, [prompt], input)
          else if String.eqb command "e" then continue_with [ev_Shell (Path project)]
          else if String.eqb command "q" then Some (ex_Quit, [prompt], input)
          else continue_with [ev_Invalid]
      end
  end.

(** [for i, project := range projects]: [Some (panicked, events, rest)]. *)
Fixpoint visit_from (fuel : nat) (i n : nat) (projects : list ProjectStatus) (input : list string)
  : option (bool * list visit_event * list string) :=
  match projects with
  | [] => Some (false, [], input)
  | p :: ps =>
      match visit_project fuel i n p input with
      | None => None
      | Some (ex_Next, evs, input') =>
          match visit_from fuel (S i) n ps input' with
          | Some (pn, evs', input'') => Some (pn, app evs evs', input'')
          | None => None
          end
      | Some (ex_Quit, evs, input') => Some (false, evs, input')
      | Some (ex_Panic, evs, input') => Some (true, evs, input')
      end
  end.

Definition visitProjects (fuel : nat) (projects : list ProjectStatus) (input : list string)
  : option (bool * list visit_event * list string) :=
  visit_from fuel 0 (List.length projects) projects input.
End Visit.

(* ------------------------------------------------------------------ *)
(** ** A concrete environment for evaluating the model *)

(** A POSIX-like [path/filepath] on already clean absolute paths, and a
    clock at instant 5 with two stored timestamps, one before and one
    after it. *)
Definition ex_IsAbs (s : string) : bool := String.prefix "/" s.
Definition ex_Abs (s : string) : string := s.
Definition ex_Join (a b : string) : string := a ++ "/" ++ b.
Definition ex_Clean (s : string) : string := s.
Definition ex_future : string := "2099-01-01 00:00:00".
Definition ex_past : string := "2000-01-01 00:00:00".
Definition ex_Parse (s : string) : option Z :=
  if String.eqb s ex_future then Some 10%Z
  else if String.eqb s ex_past then Some 0%Z
  else None.
Definition ex_Now : Z := 5%Z.

Definition ex_entry (path dirty : string) : RepoEntry :=
  mkRepoEntry path (mkSnooze dirty "" "").

(** A repository with the commits [0 <- 1 <- 2] and the given references. *)
Definition ex_repo (refs : list Reference) : Repository :=
  mkRepository refs [(2, [1]); (1, [0]); (0, [])]
    (Ok (mkWorktree (Ok (mkStatus true "")))).

Definition ex_ref (name : ReferenceName) (h : nat) : Reference :=
  mkReference name (HashReference h).

(** A dirty, stash-free, upstreamed project at [/s/r], and an ignore
    file with one active dirty-worktree snooze for it. *)
Definition ex_dirty_project : ProjectStatus := NewProject "/s/r" true false true.
Definition ex_config_future : option IgnoreConfig :=
  Some (mkIgnoreConfig [ex_entry "r" ex_future]).

(** [git.PlainOpen] on a scan root [/s] whose subdirectories are copies
    of [ex_repo []] (no references, so never upstreamed), except [bad],
    which is not a repository. *)
Definition ex_PlainOpen (bad p : string) : result Repository :=
  if String.eqb p bad then Err (ErrorString "repository does not exist")
  else Ok (ex_repo []).

Definition ex_no_stash (p : string) : bool := false.

(** [os.ReadDir("/s")], in directory order. *)
Definition ex_files : list DirEntry :=
  [mkDirEntry "b" true; mkDirEntry "a" true; mkDirEntry "notes.txt" false;
   mkDirEntry "c" true].

Definition ex_worker (bad : string) : string -> repoResult :=
  worker (ex_PlainOpen bad) ex_no_stash ex_IsAbs ex_Abs ex_Join ex_Clean ex_Parse ex_Now
    false None "/s".

Definition ex_paths : list string := repoPaths ex_Join "/s" ex_files.

(** Three workers at once, completing in the reverse of their launch
    order, then the consumer. *)
Definition ex_schedule : list Action :=
  [Launch; Launch; Launch;
   Store 0; Release 0; Finish 0;
   Store 0; Release 0; Finish 0;
   Store 0; Release 0; Finish 0;
   Consume; Consume; Consume].

Definition ex_scan (bad : string) : ScanState :=
  match exec_schedule (ex_worker bad) 3 ex_schedule (scan_init ex_paths) with
  | Some st => st
  | None => scan_init []
  end.

(** [LoadIgnoreConfig("/s")] reading back [cfg], or failing on a
    missing file. *)
Definition ex_Load (cfg : option IgnoreConfig) (scanPath : string) : result IgnoreConfig :=
  match cfg with
  | Some c => Ok c
  | None => Err (ErrorString "open /s/.goriignore.cue: no such file or directory")
  end.

(** [filepath.Rel] for a target below the base. *)
Definition ex_Rel (base target : string) : result string :=
  if String.prefix (base ++ "/") target
  then Ok (substring (String.length base + 1)
             (String.length target - String.length base - 1) target)
  else Err (ErrorString "Rel: target is not below base").

(** [time.Now().Add(d).Format(time.DateTime)] with the clock above: a
    positive duration lands on the stored future timestamp. *)
Definition ex_until (d : Z) : string := if (0 <? d)%Z then ex_future else ex_past.

(** [filepath.Base] for the paths below [/s]. *)
Definition ex_Base (p : string) : string :=
  if String.prefix "/s/" p then substring 3 (String.length p - 3) p else p.

(** Two projects to visit, the first dirty, the second with stashes. *)
Definition ex_visit_projects : list ProjectStatus :=
  [NewProject "/s/a" true false true; NewProject "/s/b" false true true].

(* ================================================================== *)
(** * Properties *)

(* ------------------------------------------------------------------ *)
(** ** Suppression Engine *)

Section SnoozeFacts.
Variable filepath_IsAbs : string -> bool.
Variable filepath_Abs : string -> string.
Variable filepath_Join : string -> string -> string.
Variable filepath_Clean : string -> string.
Variable time_Parse : string -> option Z.
Variable time_Now : Z.

Local Abbreviation is_snoozed := (isSnoozed time_Parse time_Now).
Local Abbreviation snooze_one := (snooze_entry time_Parse time_Now).
Local Abbreviation matches :=
  (entry_matches filepath_IsAbs filepath_Abs filepath_Join filepath_Clean).
Local Abbreviation apply_snooze :=
  (ApplySnooze filepath_IsAbs filepath_Abs filepath_Join filepath_Clean time_Parse time_Now).

(** An entry whose timestamp for a kind is set and still in the future. *)
Definition active (ts : string) : bool :=
  negb (String.eqb ts "") && is_snoozed ts.

Lemma isSnoozed_spec (s : string) :
  is_snoozed s = true <-> exists t, time_Parse s = Some t /\ (time_Now < t)%Z.
Proof.
  unfold isSnoozed. destruct (time_Parse s) as [t|].
  - rewrite Z.ltb_lt. split.
    + intros H. exists t. auto.
    + intros (t' & Ht & Hlt). injection Ht as <-. exact Hlt.
  - split; [discriminate | intros (t & Ht & _); discriminate].
Qed.

Lemma snooze_entry_fields (p : ProjectStatus) (e : RepoEntry) :
  let p' := snooze_one p e in
  let s := entry_Snooze e in
  Path p' = Path p /\ StatusString p' = StatusString p /\
  IsDirty p' = IsDirty p && negb (active (DirtyWorkdir s)) /\
  isDirtySnoozed p' = isDirtySnoozed p || (IsDirty p && active (DirtyWorkdir s)) /\
  HasStash p' = HasStash p && negb (active (Stashes s)) /\
  hasStashSnoozed p' = hasStashSnoozed p || (HasStash p && active (Stashes s)) /\
  Upstreamed p' = Upstreamed p || active (NotUpstreamed s) /\
  upstreamedSnoozed p' = upstreamedSnoozed p || (negb (Upstreamed p) && active (NotUpstreamed s)).
Proof.
  destruct p as [pa d h u ds hs us ss]; destruct e as [ep [sd sh su]].
  unfold snooze_entry, active; simpl.
  destruct d, h, u, (String.eqb sd ""), (String.eqb sh ""), (String.eqb su ""),
    (is_snoozed sd), (is_snoozed sh), (is_snoozed su);
    simpl; rewrite ?orb_false_r, ?orb_true_r; repeat split.
Qed.

(** The matching entries with an active timestamp for each kind. *)
Definition any_active (kind : Snooze -> string) (ms : list RepoEntry) : bool :=
  existsb (fun e => active (kind (entry_Snooze e))) ms.

Lemma fold_snooze_fields (m : RepoEntry -> bool) (l : list RepoEntry) (p : ProjectStatus) :
  let p' := fold_left (fun project repo => if m repo then snooze_one project repo else project) l p in
  let ms := filter m l in
  Path p' = Path p /\ StatusString p' = StatusString p /\
  IsDirty p' = IsDirty p && negb (any_active DirtyWorkdir ms) /\
  isDirtySnoozed p' = isDirtySnoozed p || (IsDirty p && any_active DirtyWorkdir ms) /\
  HasStash p' = HasStash p && negb (any_active Stashes ms) /\
  hasStashSnoozed p' = hasStashSnoozed p || (HasStash p && any_active Stashes ms) /\
  Upstreamed p' = Upstreamed p || any_active NotUpstreamed ms /\
  upstreamedSnoozed p' = upstreamedSnoozed p || (negb (Upstreamed p) && any_active NotUpstreamed ms).
Proof.
  revert p; induction l as [|e l IH]; intros p; cbn zeta.
  - simpl. rewrite !andb_true_r, !orb_false_r, !andb_false_r, !orb_false_r.
    repeat split.
  - simpl. destruct (m e) eqn:Hm; simpl.
    + destruct (IH (snooze_one p e)) as (H1 & H2 & H3 & H4 & H5 & H6 & H7 & H8).
      destruct (snooze_entry_fields p e) as (G1 & G2 & G3 & G4 & G5 & G6 & G7 & G8).
      rewrite H1, H2, H3, H4, H5, H6, H7, H8, G1, G2, G3, G4, G5, G6, G7, G8.
      repeat split; btauto.
    + apply IH.
Qed.

Lemma apply_snooze_fields (repoPath : string) (p : ProjectStatus) (cfg : IgnoreConfig)
    (scanPath : string) :
  let p' := apply_snooze repoPath p (Some cfg) scanPath in
  let ms := filter (matches repoPath scanPath) (Repos cfg) in
  Path p' = Path p /\ StatusString p' = StatusString p /\
  IsDirty p' = IsDirty p && negb (any_active DirtyWorkdir ms) /\
  isDirtySnoozed p' = isDirtySnoozed p || (IsDirty p && any_active DirtyWorkdir ms) /\
  HasStash p' = HasStash p && negb (any_active Stashes ms) /\
  hasStashSnoozed p' = hasStashSnoozed p || (HasStash p && any_active Stashes ms) /\
  Upstreamed p' = Upstreamed p || any_active NotUpstreamed ms /\
  upstreamedSnoozed p' = upstreamedSnoozed p || (negb (Upstreamed p) && any_active NotUpstreamed ms).
Proof. apply fold_snooze_fields. Qed.

Lemma any_active_true (kind : Snooze -> string) (repoPath scanPath : string) (l : list RepoEntry) :
  any_active kind (filter (matches repoPath scanPath) l) = true ->
  exists e t, In e l /\ matches repoPath scanPath e = true /\
    kind (entry_Snooze e) <> "" /\
    time_Parse (kind (entry_Snooze e)) = Some t /\ (time_Now < t)%Z.
Proof.
  unfold any_active. intros H. apply existsb_exists in H as (e & Hin & Ha).
  apply filter_In in Hin as (Hin & Hm).
  unfold active in Ha. apply andb_prop in Ha as (Hne & Hs).
  apply isSnoozed_spec in Hs as (t & Ht & Hlt).
  exists e, t. repeat split; auto.
  apply negb_true_iff, String.eqb_neq in Hne. exact Hne.
Qed.

(** An active timestamp of the given kind on an entry of [config] that
    resolves to [repoPath]. *)
Definition suppressed_by (config : option IgnoreConfig) (repoPath scanPath : string)
    (kind : Snooze -> string) : Prop :=
  exists cfg e t, config = Some cfg /\ In e (Repos cfg) /\
    matches repoPath scanPath e = true /\
    time_Parse (kind (entry_Snooze e)) = Some t /\ (time_Now < t)%Z.

Lemma bool_change (b a : bool) : b && negb a <> b -> b = true /\ a = true.
Proof. destruct b, a; simpl; intuition congruence. Qed.

Lemma bool_change_or (b a : bool) : b || a <> b -> b = false /\ a = true.
Proof. destruct b, a; simpl; intuition congruence. Qed.

(** C2: suppression is monotone.  [isSnoozed t] holds iff [t] parses to
    an instant strictly after the evaluation time; [ApplySnooze] only
    moves [IsDirty] and [HasStash] from true to false and [Upstreamed]
    from false to true, leaves a finding already in its good state
    unchanged, and changes a finding only when a matching entry holds a
    timestamp for that kind strictly in the future. *)
Theorem ApplySnooze_monotone (repoPath : string) (p : ProjectStatus)
    (config : option IgnoreConfig) (scanPath : string) :
  let p' := apply_snooze repoPath p config scanPath in
  (forall ts, is_snoozed ts = true <-> exists t, time_Parse ts = Some t /\ (time_Now < t)%Z) /\
  (IsDirty p = false -> IsDirty p' = false) /\
  (HasStash p = false -> HasStash p' = false) /\
  (Upstreamed p = true -> Upstreamed p' = true) /\
  (IsDirty p' <> IsDirty p ->
     IsDirty p = true /\ IsDirty p' = false /\ suppressed_by config repoPath scanPath DirtyWorkdir) /\
  (HasStash p' <> HasStash p ->
     HasStash p = true /\ HasStash p' = false /\ suppressed_by config repoPath scanPath Stashes) /\
  (Upstreamed p' <> Upstreamed p ->
     Upstreamed p = false /\ Upstreamed p' = true /\ suppressed_by config repoPath scanPath NotUpstreamed).
Proof.
  cbn zeta. split; [exact isSnoozed_spec|].
  destruct config as [cfg|].
  2:{ simpl. repeat match goal with |- _ /\ _ => split end; intros; congruence. }
  destruct (apply_snooze_fields repoPath p cfg scanPath)
    as (_ & _ & Hd & _ & Hh & _ & Hu & _).
  cbn zeta in Hd, Hh, Hu. rewrite Hd, Hh, Hu.
  repeat match goal with |- _ /\ _ => split end.
  - intros ->. reflexivity.
  - intros ->. reflexivity.
  - intros ->. reflexivity.
  - intros H. apply bool_change in H as [Hp Ha]. rewrite Hp, Ha.
    split; [reflexivity|split; [reflexivity|]].
    apply any_active_true in Ha as (e & t & Hin & Hm & _ & Ht & Hlt).
    exists cfg, e, t. auto.
  - intros H. apply bool_change in H as [Hp Ha]. rewrite Hp, Ha.
    split; [reflexivity|split; [reflexivity|]].
    apply any_active_true in Ha as (e & t & Hin & Hm & _ & Ht & Hlt).
    exists cfg, e, t. auto.
  - intros H. apply bool_change_or in H as [Hp Ha]. rewrite Hp, Ha.
    split; [reflexivity|split; [reflexivity|]].
    apply any_active_true in Ha as (e & t & Hin & Hm & _ & Ht & Hlt).
    exists cfg, e, t. auto.
Qed.

(** C7 (as amended): [ApplySnooze] is total and visits the entries in
    encounter order; for each kind, a bad finding ends up suppressed iff
    at least one entry resolving to the repository holds an active
    timestamp for that kind.  A later entry never undoes an earlier
    suppression, since the engine only acts on findings still bad. *)
Theorem ApplySnooze_duplicate_entries (repoPath : string) (p : ProjectStatus)
    (cfg : IgnoreConfig) (scanPath : string) :
  let p' := apply_snooze repoPath p (Some cfg) scanPath in
  let ms := filter (matches repoPath scanPath) (Repos cfg) in
  IsDirty p' = IsDirty p && negb (any_active DirtyWorkdir ms) /\
  isDirtySnoozed p' = isDirtySnoozed p || (IsDirty p && any_active DirtyWorkdir ms) /\
  HasStash p' = HasStash p && negb (any_active Stashes ms) /\
  hasStashSnoozed p' = hasStashSnoozed p || (HasStash p && any_active Stashes ms) /\
  Upstreamed p' = Upstreamed p || any_active NotUpstreamed ms /\
  upstreamedSnoozed p' = upstreamedSnoozed p || (negb (Upstreamed p) && any_active NotUpstreamed ms).
Proof.
  destruct (apply_snooze_fields repoPath p cfg scanPath)
    as (_ & _ & H1 & H2 & H3 & H4 & H5 & H6).
  cbn zeta in *. auto 10.
Qed.

(** C10: starting from [NewProject] (all snoozed flags false), after
    [ApplySnooze] each snoozed flag implies its finding is in the good
    state, and a flag is set exactly when the engine turned the bad
    finding into the good one. *)
Theorem NewProject_ApplySnooze_flags (path : string) (isDirty hasStash upstreamed : bool)
    (repoPath : string) (config : option IgnoreConfig) (scanPath : string) :
  let p' := apply_snooze repoPath (NewProject path isDirty hasStash upstreamed) config scanPath in
  (isDirtySnoozed p' = true -> IsDirty p' = false) /\
  (hasStashSnoozed p' = true -> HasStash p' = false) /\
  (upstreamedSnoozed p' = true -> Upstreamed p' = true) /\
  isDirtySnoozed p' = isDirty && negb (IsDirty p') /\
  hasStashSnoozed p' = hasStash && negb (HasStash p') /\
  upstreamedSnoozed p' = negb upstreamed && Upstreamed p'.
Proof.
  cbn zeta. destruct config as [cfg|].
  - destruct (apply_snooze_fields repoPath (NewProject path isDirty hasStash upstreamed) cfg scanPath)
      as (_ & _ & H1 & H2 & H3 & H4 & H5 & H6).
    cbn zeta in *. rewrite H1, H2, H3, H4, H5, H6. simpl.
    repeat match goal with |- _ /\ _ => split end.
    + destruct isDirty, (any_active DirtyWorkdir _); simpl; congruence.
    + destruct hasStash, (any_active Stashes _); simpl; congruence.
    + destruct upstreamed, (any_active NotUpstreamed _); simpl; congruence.
    + btauto.
    + btauto.
    + btauto.
  - simpl. repeat match goal with |- _ /\ _ => split end; try discriminate;
      [destruct isDirty | destruct hasStash | destruct upstreamed]; reflexivity.
Qed.
End SnoozeFacts.

(** C7 fails as stated: with two entries for the same repository, an
    active dirty-worktree timestamp followed by an expired one, the later
    entry does not determine the outcome: the project ends up clean of
    the finding, while the later entry on its own leaves it dirty. *)
Lemma ApplySnooze_later_entry_not_decisive :
  let e1 := ex_entry "r" ex_future in
  let e2 := ex_entry "r" ex_past in
  let p := NewProject "/s/r" true false true in
  entry_matches ex_IsAbs ex_Abs ex_Join ex_Clean "/s/r" "/s" e1 = true /\
  entry_matches ex_IsAbs ex_Abs ex_Join ex_Clean "/s/r" "/s" e2 = true /\
  IsDirty (ApplySnooze ex_IsAbs ex_Abs ex_Join ex_Clean ex_Parse ex_Now
             "/s/r" p (Some (mkIgnoreConfig [e1; e2])) "/s")
  <> IsDirty (ApplySnooze ex_IsAbs ex_Abs ex_Join ex_Clean ex_Parse ex_Now
                "/s/r" p (Some (mkIgnoreConfig [e2])) "/s").
Proof. vm_compute. split; [reflexivity | split; [reflexivity | discriminate]]. Qed.

(* ------------------------------------------------------------------ *)
(** ** Upstream Resolver *)

Lemma find_commit_In (objs : list (nat * list nat)) (h : nat) (ps : list nat) :
  find_commit objs h = Some ps -> In (h, ps) objs.
Proof.
  induction objs as [|[h' ps'] objs IH]; simpl; [discriminate|].
  destruct (Nat.eqb h' h) eqn:E.
  - intros [= <-]. apply Nat.eqb_eq in E as ->. left. reflexivity.
  - intros H. right. apply IH, H.
Qed.

Lemma well_formed_parent (objs : list (nat * list nat)) (x p : nat) (ps : list nat) :
  well_formed objs = true -> find_commit objs x = Some ps -> In p ps ->
  p < x /\ find_commit objs p <> None.
Proof.
  unfold well_formed. intros Hwf Hx Hp.
  apply find_commit_In in Hx.
  rewrite forallb_forall in Hwf. specialize (Hwf _ Hx). simpl in Hwf.
  rewrite forallb_forall in Hwf. specialize (Hwf _ Hp).
  apply andb_prop in Hwf as [Hlt Hs]. apply Nat.ltb_lt in Hlt.
  split; [exact Hlt|]. destruct (find_commit objs p); [discriminate | discriminate Hs].
Qed.

Lemma reachable_trans (c : nat -> option (list nat)) (x y z : nat) :
  reachable c x y -> reachable c y z -> reachable c x z.
Proof.
  induction 1 as [x ps Hx | x ps p y Hx Hp _ IH]; intros Hyz; [exact Hyz|].
  eapply reachable_parent; eauto.
Qed.

Lemma reachable_stored (c : nat -> option (list nat)) (x y : nat) :
  reachable c x y -> c x <> None.
Proof. destruct 1; congruence. Qed.

Lemma reachable_end_stored (c : nat -> option (list nat)) (x y : nat) :
  reachable c x y -> c y <> None.
Proof. induction 1; congruence. Qed.

Section Walk.
Variable objs : list (nat * list nat).
Hypothesis Hwf : well_formed objs = true.
Let commits := find_commit objs.

(** The walk decides reachability and never fails in a well-formed
    store, as long as the fuel exceeds the start's number. *)
Lemma walk_decides (target : nat) :
  forall fuel x, x < fuel -> commits x <> None ->
  (walk commits fuel target x = Ok true /\ reachable commits x target) \/
  (walk commits fuel target x = Ok false /\ ~ reachable commits x target).
Proof.
  induction fuel as [|f IH]; intros x Hlt Hx; [lia|].
  simpl. destruct (Nat.eqb x target) eqn:E.
  { left. apply Nat.eqb_eq in E as <-. split; [reflexivity|].
    destruct (commits x) eqn:F; [eapply reachable_self; eauto | contradiction]. }
  apply Nat.eqb_neq in E.
  destruct (commits x) as [ps|] eqn:F; [|contradiction].
  assert (Hps : forall qs, incl qs ps ->
            (visit_parents (walk commits f target) qs = Ok true /\
               exists p, In p qs /\ reachable commits p target) \/
            (visit_parents (walk commits f target) qs = Ok false /\
               forall p, In p qs -> ~ reachable commits p target)).
  { induction qs as [|q qs IHq]; intros Hincl; simpl.
    - right. split; [reflexivity | intros p []].
    - assert (Hq : In q ps) by (apply Hincl; left; reflexivity).
      destruct (well_formed_parent objs x q ps Hwf F Hq) as [Hqx Hqs].
      destruct (IH q ltac:(lia) Hqs) as [[-> Hr] | [-> Hr]].
      + left. split; [reflexivity|]. exists q. split; [left|]; auto.
      + destruct (IHq (fun a Ha => Hincl a (or_intror Ha))) as [[-> (p & Hp & Hpr)] | [-> Hn]].
        * left. split; [reflexivity|]. exists p. split; [right|]; auto.
        * right. split; [reflexivity|]. intros p [<- | Hp]; auto. }
  destruct (Hps ps (fun a Ha => Ha)) as [[-> (p & Hp & Hpr)] | [-> Hn]].
  - left. split; [reflexivity|]. eapply reachable_parent; eauto.
  - right. split; [reflexivity|]. intros Hr.
    inversion Hr as [x' ps' Hx' | x' ps' p y Hx' Hp Hpr]; subst.
    + apply E. reflexivity.
    + rewrite F in Hx'. injection Hx' as <-. apply (Hn p); assumption.
Qed.
End Walk.

Lemma visit_parents_err (visit : nat -> result bool) (ps : list nat) (e : error) :
  (forall p e', visit p = Err e' -> e' = ErrObjectNotFound) ->
  visit_parents visit ps = Err e -> e = ErrObjectNotFound.
Proof.
  intros Hv. induction ps as [|p ps IH]; simpl; [discriminate|].
  destruct (visit p) as [[|]|e'] eqn:V; try discriminate; auto.
  intros [= <-]. eapply Hv; eauto.
Qed.

(** The walk only ever fails to load an object. *)
Lemma walk_err (c : nat -> option (list nat)) (fuel target x : nat) (e : error) :
  walk c fuel target x = Err e -> e = ErrObjectNotFound.
Proof.
  revert x e. induction fuel as [|f IH]; intros x e; simpl; [discriminate|].
  destruct (Nat.eqb x target); [discriminate|].
  destruct (c x) as [ps|]; [|congruence].
  apply visit_parents_err. intros p e'. apply IH.
Qed.

(** C4: when the local branch and its origin counterpart both resolve to
    stored commits of a well-formed repository, [isBranchUpstreamed]
    returns no error, returns true iff every commit reachable from the
    local commit is reachable from the remote one, and returns
    [(true, nil)] when both refs point at the same commit. *)
Theorem isBranchUpstreamed_ancestry (repo : Repository)
    (localBranchName remoteBranchName : string) (ln rn : ReferenceName) (lh rh : nat) :
  well_formed (repo_objects repo) = true ->
  RepoReference repo (NewBranchReferenceName localBranchName) = Ok (ln, lh) ->
  repo_commits repo lh <> None ->
  RepoReference repo (NewRemoteReferenceName "origin" remoteBranchName) = Ok (rn, rh) ->
  repo_commits repo rh <> None ->
  snd (isBranchUpstreamed repo localBranchName remoteBranchName) = None /\
  (fst (isBranchUpstreamed repo localBranchName remoteBranchName) = true <->
     forall c, reachable (repo_commits repo) lh c -> reachable (repo_commits repo) rh c) /\
  (lh = rh -> isBranchUpstreamed repo localBranchName remoteBranchName = (true, None)).
Proof.
  intros Hwf Hl Hls Hr Hrs.
  unfold isBranchUpstreamed. rewrite Hl.
  unfold CommitObject. destruct (repo_commits repo lh) as [lps|] eqn:Fl; [|contradiction].
  rewrite Hr. destruct (repo_commits repo rh) as [rps|] eqn:Fr; [|contradiction].
  unfold IsAncestor. simpl commit_Hash.
  unfold repo_commits in *.
  destruct (walk_decides (repo_objects repo) Hwf lh (S rh) rh ltac:(lia) ltac:(congruence))
    as [[-> Hreach] | [-> Hnot]].
  - split; [reflexivity|]. split; [|reflexivity].
    split; [intros _ c Hc | reflexivity].
    eapply reachable_trans; eauto.
  - assert (Hself : reachable (find_commit (repo_objects repo)) lh lh)
      by (eapply reachable_self; eauto).
    split; [reflexivity|]. split.
    + split; [discriminate|]. intros H. exfalso. apply Hnot, H, Hself.
    + intros <-. exfalso. apply Hnot, Hself.
Qed.

Lemma lookup_ref_absent (refs : list Reference) (n : ReferenceName) :
  (forall r, In r refs -> ref_Name r <> n) -> lookup_ref refs n = Err ErrReferenceNotFound.
Proof.
  induction refs as [|r refs IH]; intros Hn; simpl; [reflexivity|].
  destruct (String.eqb (ref_Name r) n) eqn:E.
  - apply String.eqb_eq in E. exfalso. apply (Hn r); [left|]; auto.
  - apply IH. intros r' Hr'. apply Hn. right. exact Hr'.
Qed.

(** C5: with a resolvable local branch (to a stored commit) and no
    [origin/<branch>] reference, [isBranchUpstreamed] returns
    [(false, ErrReferenceNotFound)]; and that sentinel is returned in no
    other situation: every other failure of the call carries a different
    error value. *)
Theorem isBranchUpstreamed_remote_not_found (repo : Repository)
    (localBranchName remoteBranchName : string) (ln : ReferenceName) (lh : nat) :
  RepoReference repo (NewBranchReferenceName localBranchName) = Ok (ln, lh) ->
  repo_commits repo lh <> None ->
  (forall r, In r (repo_refs repo) -> ref_Name r <> NewRemoteReferenceName "origin" remoteBranchName) ->
  isBranchUpstreamed repo localBranchName remoteBranchName = (false, Some ErrReferenceNotFound) /\
  (forall repo' l' r' u,
     isBranchUpstreamed repo' l' r' = (u, Some ErrReferenceNotFound) ->
     u = false /\
     (exists n h, RepoReference repo' (NewBranchReferenceName l') = Ok (n, h) /\
                  repo_commits repo' h <> None) /\
     RepoReference repo' (NewRemoteReferenceName "origin" r') = Err ErrReferenceNotFound).
Proof.
  intros Hl Hls Hnone. split.
  - unfold isBranchUpstreamed. rewrite Hl. unfold CommitObject.
    destruct (repo_commits repo lh) as [lps|]; [|contradiction].
    unfold RepoReference at 1. rewrite (lookup_ref_absent _ _ Hnone). reflexivity.
  - intros repo' l' r' u H. unfold isBranchUpstreamed in H.
    destruct (RepoReference repo' (NewBranchReferenceName l')) as [[n h]|e] eqn:L;
      [|discriminate H].
    unfold CommitObject in H.
    destruct (repo_commits repo' h) as [lps|] eqn:Fl; [|discriminate H].
    destruct (RepoReference repo' (NewRemoteReferenceName "origin" r')) as [[rn rh]|e] eqn:R.
    + destruct (repo_commits repo' rh) as [rps|]; [|discriminate H].
      destruct (IsAncestor repo' (mkCommit h lps) (mkCommit rh rps)) as [b|e] eqn:A;
        [discriminate H|].
      injection H as _ ->. unfold IsAncestor in A. apply walk_err in A. discriminate A.
    + injection H as <- ->. split; [reflexivity|]. split; [|reflexivity].
      exists n, h. split; [reflexivity | congruence].
Qed.

(** C1 (code defect): the locator keeps the last remote-tracking
    reference it enumerates, so when [origin/main] and [origin/master]
    both exist it answers ["master"] if [origin/master] comes later;
    main is preferred only when it is enumerated last. *)
Theorem getLikelyUpstreamMainishBranch_last_seen_wins :
  getLikelyUpstreamMainishBranch
    (ex_repo [ex_ref (NewRemoteReferenceName "origin" "main") 2;
              ex_ref (NewRemoteReferenceName "origin" "master") 1]) = Ok "master" /\
  getLikelyUpstreamMainishBranch
    (ex_repo [ex_ref (NewRemoteReferenceName "origin" "master") 1;
              ex_ref (NewRemoteReferenceName "origin" "main") 2]) = Ok "main" /\
  getLikelyUpstreamMainishBranch
    (ex_repo [ex_ref (NewBranchReferenceName "main") 2;
              ex_ref (NewRemoteReferenceName "origin" "feat") 1])
  = Err (ErrorString "neither main nor master branch exists").
Proof. vm_compute. repeat split. Qed.

(* ------------------------------------------------------------------ *)
(** ** Per-Project Status Evaluator *)

(** C6: for every resolver and locator, a checkout whose HEAD is
    detached (its short name is ["HEAD"]) gives [upstreamed = false]
    whatever the resolver and locator would answer; otherwise the result
    is the spec's order: same-named origin counterpart first, then the
    mainish branch, where a locator failure or any resolver error gives
    false and only a true, error-free ancestry answer gives true. *)
Theorem isUpstreamed_resolution_order
    (branchUpstreamed : string -> string -> bool * option error)
    (likelyMainish : result string) (name : ReferenceName) (h : nat) :
  isUpstreamed_with branchUpstreamed likelyMainish (Ok (name, h)) =
  if String.eqb (Short name) "HEAD" then false
  else spec_upstreamed_order branchUpstreamed likelyMainish (Short name).
Proof.
  unfold isUpstreamed_with, spec_upstreamed_order.
  destruct (String.eqb (Short name) "HEAD"); [reflexivity|].
  destruct (branchUpstreamed (Short name) (Short name)) as [u e]; simpl.
  destruct u; [reflexivity|]. simpl.
  destruct likelyMainish as [m|e']; [|reflexivity].
  destruct (branchUpstreamed (Short name) m) as [u2 [e2|]].
  - destruct (is_ErrReferenceNotFound e2); reflexivity.
  - destruct u2; reflexivity.
Qed.

(* ------------------------------------------------------------------ *)
(** ** Scan Orchestrator *)

Section SchedulerFacts.
Local Open Scope list_scope.
Variable eval : string -> repoResult.
Variable concurrency : nat.

Local Abbreviation step := (scan_step eval concurrency).
Local Abbreviation reach := (scan_reach eval concurrency).

Definition in_flight (st : ScanState) (p : string) : Prop :=
  In p (to_launch st) \/ In p (running st) \/ In p (stored st) \/
  In p (released st) \/ In p (finished st).

(** The invariant of [run]: the map only holds each path's own result;
    a path whose worker has stored its result is found in the map;
    every path the consumer still waits for has a worker somewhere; and
    the consumer has handled a prefix of the paths, each one finished,
    in order. *)
Record scan_inv (paths : list string) (st : ScanState) : Prop := {
  inv_results : forall p r, lookup_result (results st) p = Some r -> r = eval p;
  inv_stored : forall p, In p (stored st) \/ In p (released st) \/ In p (finished st) ->
               lookup_result (results st) p <> None;
  inv_waiting : forall p, In p (remaining st) -> in_flight st p;
  inv_prefix : exists consumed,
      paths = consumed ++ remaining st /\
      visited st = expected eval consumed /\
      (forall p, In p consumed -> In p (finished st))
}.

Lemma lookup_result_cons (res : list (string * repoResult)) (p q : string) (r : repoResult) :
  lookup_result ((p, r) :: res) q = if String.eqb p q then Some r else lookup_result res q.
Proof. reflexivity. Qed.

Lemma in_remove_mid {A} (l1 l2 : list A) (p q : A) :
  In q (l1 ++ p :: l2) -> q = p \/ In q (l1 ++ l2).
Proof.
  rewrite !in_app_iff. simpl. intuition.
Qed.

Lemma in_keep_mid {A} (l1 l2 : list A) (p q : A) :
  In q (l1 ++ l2) -> In q (l1 ++ p :: l2).
Proof.
  rewrite !in_app_iff. simpl. intuition.
Qed.

Lemma scan_inv_init (paths : list string) : scan_inv paths (scan_init paths).
Proof.
  constructor; simpl.
  - discriminate.
  - intros p [[] | [[] | []]].
  - intros p Hp. left. exact Hp.
  - exists []. repeat split. intros p [].
Qed.

Lemma scan_inv_step (paths : list string) (st st' : ScanState) :
  scan_inv paths st -> step st st' -> scan_inv paths st'.
Proof.
  intros [Hres Hsto Hwait (consumed & Hpaths & Hvis & Hfin)] Hstep.
  destruct Hstep as [p0 ps r s l f res rem v Hcap | | | | t r s l f res p rem v Hfinp];
    simpl in *.
  - (* launch *)
    constructor; simpl; auto.
    + intros q Hq. destruct (Hwait q Hq) as [[<- | Hq'] | H]; unfold in_flight; simpl.
      * right. left. left. reflexivity.
      * left. exact Hq'.
      * right. destruct H as [H | H]; [left; right; exact H | right; exact H].
    + exists consumed. auto.
  - (* store *)
    constructor; simpl.
    + intros q rq. try rewrite lookup_result_cons.
      destruct (String.eqb p q) eqn:E.
      * apply String.eqb_eq in E as <-. intros [= <-]. reflexivity.
      * apply Hres.
    + intros q Hq. try rewrite lookup_result_cons.
      destruct (String.eqb p q) eqn:E; [discriminate|].
      apply String.eqb_neq in E. apply Hsto.
      destruct Hq as [[<- | Hq] | Hq]; [contradiction | left; exact Hq | right; exact Hq].
    + intros q Hq. destruct (Hwait q Hq) as [H | [H | H]]; unfold in_flight; simpl.
      * left. exact H.
      * apply in_remove_mid in H as [-> | H].
        -- right. right. left. left. reflexivity.
        -- right. left. exact H.
      * right. right. destruct H as [H | H]; [left; right; exact H | right; exact H].
    + exists consumed. auto.
  - (* release *)
    constructor; simpl; auto.
    + intros q Hq. apply Hsto.
      destruct Hq as [Hq | [[<- | Hq] | Hq]].
      * left. apply in_keep_mid. exact Hq.
      * left. apply in_or_app. right. left. reflexivity.
      * right. left. exact Hq.
      * right. right. exact Hq.
    + intros q Hq. destruct (Hwait q Hq) as [H | [H | [H | H]]]; unfold in_flight; simpl.
      * left. exact H.
      * right. left. exact H.
      * apply in_remove_mid in H as [-> | H].
        -- right. right. right. left. left. reflexivity.
        -- right. right. left. exact H.
      * right. right. right. destruct H as [H | H]; [left; right; exact H | right; exact H].
    + exists consumed. auto.
  - (* finish *)
    constructor; simpl; auto.
    + intros q Hq. apply Hsto.
      destruct Hq as [Hq | [Hq | [<- | Hq]]].
      * left. exact Hq.
      * right. left. apply in_keep_mid. exact Hq.
      * right. left. apply in_or_app. right. left. reflexivity.
      * right. right. exact Hq.
    + intros q Hq. destruct (Hwait q Hq) as [H | [H | [H | [H | H]]]]; unfold in_flight; simpl.
      * left. exact H.
      * right. left. exact H.
      * right. right. left. exact H.
      * apply in_remove_mid in H as [-> | H].
        -- right. right. right. right. left. reflexivity.
        -- right. right. right. left. exact H.
      * right. right. right. right. right. exact H.
    + exists consumed. split; [exact Hpaths | split; [exact Hvis|]].
      intros q Hq. right. apply Hfin, Hq.
  - (* consume *)
    constructor; simpl; auto.
    + intros q Hq. apply Hwait. right. exact Hq.
    + exists (consumed ++ [p]). split; [|split].
      * rewrite <- app_assoc. exact Hpaths.
      * rewrite Hvis. unfold expected. rewrite flat_map_app. simpl.
        rewrite app_nil_r. f_equal.
        destruct (lookup_result res p) as [r0|] eqn:L.
        -- rewrite (Hres p r0 L). reflexivity.
        -- exfalso. apply (Hsto p); [right; right; exact Hfinp | exact L].
      * intros q Hq. apply in_app_iff in Hq as [Hq | [<- | []]]; auto.
Qed.

Lemma scan_inv_reach (paths : list string) (st : ScanState) :
  reach (scan_init paths) st -> scan_inv paths st.
Proof.
  induction 1 as [|st st' _ IH Hstep].
  - apply scan_inv_init.
  - eapply scan_inv_step; eauto.
Qed.

Lemma scan_progress (paths : list string) (st : ScanState) :
  0 < concurrency -> reach (scan_init paths) st -> remaining st <> [] ->
  exists st', step st st'.
Proof.
  intros Hc Hr Hrem. destruct (scan_inv_reach paths st Hr) as [_ _ Hwait _].
  destruct st as [t r s l f res rem v]; simpl in *.
  destruct r as [|q r].
  2:{ eexists. apply (step_store eval concurrency t [] q r). }
  destruct s as [|q s].
  2:{ eexists. apply (step_release eval concurrency t [] [] q s). }
  destruct l as [|q l].
  2:{ eexists. apply (step_finish eval concurrency t [] [] [] q l). }
  destruct t as [|q t].
  2:{ eexists. apply step_launch. simpl. exact Hc. }
  destruct rem as [|p rem]; [contradiction|].
  destruct (Hwait p (or_introl eq_refl)) as [[] | [[] | [[] | [[] | Hf]]]].
  eexists. apply step_consume. exact Hf.
Qed.

Definition scan_measure (st : ScanState) : nat :=
  4 * List.length (to_launch st) + 3 * List.length (running st)
  + 2 * List.length (stored st) + List.length (released st)
  + List.length (remaining st).

Lemma scan_step_measure (st st' : ScanState) :
  step st st' -> scan_measure st' < scan_measure st.
Proof.
  destruct 1; unfold scan_measure; simpl; rewrite ?length_app; simpl; lia.
Qed.

(** No run of the scan is infinite. *)
Lemma scan_terminates (st : ScanState) : Acc (fun b a => step a b) st.
Proof.
  assert (H : forall n st, scan_measure st < n -> Acc (fun b a => step a b) st).
  { induction n as [|n IH]; intros st0 Hlt; [lia|].
    constructor. intros st1 Hs. apply IH.
    pose proof (scan_step_measure st0 st1 Hs). lia. }
  apply (H (S (scan_measure st))). lia.
Qed.

(** A finished run has handed every path to the consumer. *)
Lemma scan_final (paths : list string) (st : ScanState) :
  reach (scan_init paths) st -> remaining st = [] ->
  visited st = expected eval paths /\ forall p, In p paths -> In p (finished st).
Proof.
  intros Hr Hrem. destruct (scan_inv_reach paths st Hr) as [_ _ _ (c & Hp & Hv & Hf)].
  rewrite Hrem, app_nil_r in Hp. subst c. auto.
Qed.

Lemma nth_error_split_firstn {A} (l : list A) (i : nat) (p : A) :
  nth_error l i = Some p -> l = firstn i l ++ p :: skipn (S i) l.
Proof.
  revert i. induction l as [|a l IH]; intros [|i]; simpl; try discriminate.
  - intros [= ->]. reflexivity.
  - intros H. f_equal. apply IH, H.
Qed.

Lemma exec_action_step (a : Action) (st st' : ScanState) :
  exec_action eval concurrency a st = Some st' -> step st st'.
Proof.
  destruct st as [t r s l f res rem v].
  destruct a as [| i | i | i |]; simpl.
  - destruct t as [|p t]; [discriminate|].
    destruct (Nat.ltb _ _) eqn:E; [|discriminate].
    intros [= <-]. apply step_launch. apply Nat.ltb_lt, E.
  - destruct (nth_error r i) as [p|] eqn:E; [|discriminate]. intros [= <-].
    pose proof (nth_error_split_firstn r i p E) as Hr.
    unfold remove_nth. rewrite Hr at 1. apply step_store.
  - destruct (nth_error s i) as [p|] eqn:E; [|discriminate]. intros [= <-].
    pose proof (nth_error_split_firstn s i p E) as Hs.
    unfold remove_nth. rewrite Hs at 1. apply step_release.
  - destruct (nth_error l i) as [p|] eqn:E; [|discriminate]. intros [= <-].
    pose proof (nth_error_split_firstn l i p E) as Hl.
    unfold remove_nth. rewrite Hl at 1. apply step_finish.
  - destruct rem as [|p rem]; [discriminate|].
    destruct (existsb (String.eqb p) f) eqn:E; [|discriminate].
    intros [= <-]. apply step_consume.
    apply existsb_exists in E as (q & Hq & Heq). apply String.eqb_eq in Heq. subst q. exact Hq.
Qed.

(** Replaying a schedule follows the scan's steps. *)
Lemma exec_schedule_reach (st0 : ScanState) (acts : list Action) (st st' : ScanState) :
  reach st0 st -> exec_schedule eval concurrency acts st = Some st' -> reach st0 st'.
Proof.
  revert st. induction acts as [|a acts IH]; intros st Hr; simpl.
  - intros [= <-]. exact Hr.
  - destruct (exec_action eval concurrency a st) as [st1|] eqn:E; [|discriminate].
    intros H. apply (IH st1); [|exact H].
    eapply reach_step; [exact Hr | exact (exec_action_step a st st1 E)].
Qed.
End SchedulerFacts.

(** Go's byte-wise string order. *)
Definition str_le (a b : string) : Prop := String.leb a b = true.

Lemma ascii_compare_trans_lt (x y z : ascii) :
  Ascii.compare x y = Lt -> Ascii.compare y z = Lt -> Ascii.compare x z = Lt.
Proof. unfold Ascii.compare. rewrite !N.compare_lt_iff. lia. Qed.

Lemma string_compare_not_gt_trans (a b c : string) :
  String.compare a b <> Gt -> String.compare b c <> Gt -> String.compare a c <> Gt.
Proof.
  revert b c. induction a as [|x a IH]; intros [|y b] [|z c]; simpl; try congruence.
  destruct (Ascii.compare x y) eqn:Exy; try congruence;
    destruct (Ascii.compare y z) eqn:Eyz; try congruence; intros H1 H2.
  - apply Ascii.compare_eq_iff in Exy, Eyz. subst. unfold Ascii.compare; rewrite N.compare_refl. eauto.
  - apply Ascii.compare_eq_iff in Exy. subst. rewrite Eyz. discriminate.
  - apply Ascii.compare_eq_iff in Eyz. subst. rewrite Exy. discriminate.
  - rewrite (ascii_compare_trans_lt x y z Exy Eyz). discriminate.
Qed.

Lemma str_le_trans (a b c : string) : str_le a b -> str_le b c -> str_le a c.
Proof.
  unfold str_le, String.leb.
  destruct (String.compare a b) eqn:E1; try discriminate;
  destruct (String.compare b c) eqn:E2; try discriminate; intros _ _;
  destruct (String.compare a c) eqn:E3; try reflexivity;
  exfalso; apply (string_compare_not_gt_trans a b c); congruence.
Qed.

Lemma str_le_total (a b : string) : String.leb a b = false -> str_le b a.
Proof.
  intros H. unfold str_le. destruct (String.leb_total a b) as [H' | H']; congruence.
Qed.

Lemma insert_sorted_In (x z : string) (l : list string) :
  In z (insert_sorted x l) -> z = x \/ In z l.
Proof.
  induction l as [|y l IH]; simpl.
  - intros [<- | []]. left. reflexivity.
  - destruct (String.leb x y); simpl.
    + intros [<- | H]; [left; reflexivity | right; exact H].
    + intros [<- | H]; [right; left; reflexivity|].
      destruct (IH H) as [-> | H']; [left; reflexivity | right; right; exact H'].
Qed.

Lemma insert_sorted_sorted (x : string) (l : list string) :
  StronglySorted str_le l -> StronglySorted str_le (insert_sorted x l).
Proof.
  induction l as [|y l IH]; simpl; intros Hs.
  - constructor; constructor.
  - inversion Hs as [|? ? Hl Hy]; subst.
    destruct (String.leb x y) eqn:E.
    + constructor; [exact Hs|]. constructor; [exact E|].
      eapply Forall_impl; [|exact Hy]. intros a Ha. eapply str_le_trans; eauto.
    + constructor; [apply IH, Hl|].
      apply Forall_forall. intros z Hz.
      destruct (insert_sorted_In x z l Hz) as [-> | Hz'].
      * apply str_le_total, E.
      * rewrite Forall_forall in Hy. apply Hy, Hz'.
Qed.

Lemma sort_strings_sorted (l : list string) : StronglySorted str_le (sort_strings l).
Proof.
  induction l as [|x l IH]; simpl; [constructor|].
  apply insert_sorted_sorted, IH.
Qed.

Lemma StronglySorted_app_l {A} (R : A -> A -> Prop) (l1 l2 : list A) :
  StronglySorted R (l1 ++ l2) -> StronglySorted R l1.
Proof.
  induction l1 as [|a l1 IH]; simpl; intros H; [constructor|].
  inversion H as [|? ? H1 H2]; subst. constructor; [apply IH, H1|].
  rewrite Forall_forall in *. intros x Hx. apply H2, in_or_app. left. exact Hx.
Qed.

Lemma consume_some (r : repoResult) (q : ProjectStatus) :
  In q (consume (Some r)) -> rr_err r = None /\ q = rr_status r /\ Clean (rr_status r) = false.
Proof.
  unfold consume, Clean. destruct (rr_err r); [intros []|].
  destruct (IsDirty _ || HasStash _ || negb (Upstreamed _)) eqn:E; [|intros []].
  intros [<- | []]. auto.
Qed.

Lemma In_expected (eval : string -> repoResult) (paths : list string) (q : ProjectStatus) :
  In q (expected eval paths) <->
  exists p, In p paths /\ rr_err (eval p) = None /\ q = rr_status (eval p) /\
            Clean (rr_status (eval p)) = false.
Proof.
  unfold expected. rewrite in_flat_map. split.
  - intros (p & Hp & Hq). apply consume_some in Hq as (H1 & H2 & H3). eauto.
  - intros (p & Hp & H1 & H2 & H3). exists p. split; [exact Hp|].
    unfold consume, Clean in *. rewrite H1. subst q.
    destruct (IsDirty _ || HasStash _ || negb (Upstreamed _)); [left; reflexivity | discriminate].
Qed.

(** The yielded statuses carry their own paths, so they come out in the
    order of the paths. *)
Lemma expected_sorted (eval : string -> repoResult) (paths : list string) :
  (forall p, rr_err (eval p) = None -> Path (rr_status (eval p)) = p) ->
  StronglySorted str_le paths ->
  StronglySorted str_le (map Path (expected eval paths)).
Proof.
  intros Hpath. induction paths as [|p paths IH]; intros Hs; [constructor|].
  inversion Hs as [|? ? Hl Hp]; subst.
  unfold expected. simpl. fold (expected eval paths).
  unfold consume. destruct (rr_err (eval p)) eqn:E; [apply IH, Hl|].
  destruct (_ || _ || _); simpl; [|apply IH, Hl].
  constructor; [apply IH, Hl|]. rewrite (Hpath p E).
  apply Forall_forall. intros x Hx. apply in_map_iff in Hx as (q & <- & Hq).
  apply In_expected in Hq as (p' & Hp' & He & -> & _).
  rewrite (Hpath p' He). rewrite Forall_forall in Hp. apply Hp, Hp'.
Qed.

(* ------------------------------------------------------------------ *)
(** ** The worker and the orchestrator *)

Lemma ApplySnooze_Path IsAbs Abs Join Cln Parse Now (repoPath : string) (project : ProjectStatus)
    (config : option IgnoreConfig) (scanPath : string) :
  Path (ApplySnooze IsAbs Abs Join Cln Parse Now repoPath project config scanPath) = Path project.
Proof.
  destruct config as [cfg|]; [|reflexivity].
  apply (apply_snooze_fields IsAbs Abs Join Cln Parse Now repoPath project cfg scanPath).
Qed.

Section WorkerFacts.
Variable PlainOpen : string -> result Repository.
Variable stash_exists : string -> bool.
Variable filepath_IsAbs : string -> bool.
Variable filepath_Abs : string -> string.
Variable filepath_Join : string -> string -> string.
Variable filepath_Clean : string -> string.
Variable time_Parse : string -> option Z.
Variable time_Now : Z.
Variable showChanges : bool.
Variable ignoreConfig : option IgnoreConfig.
Variable scanPath : string.

Local Abbreviation w :=
  (worker PlainOpen stash_exists filepath_IsAbs filepath_Abs filepath_Join filepath_Clean
     time_Parse time_Now showChanges ignoreConfig scanPath).

(** A worker stores an error exactly when opening the repository, its
    worktree or its status fails. *)
Lemma worker_err_None (p : string) :
  rr_err (w p) = None <-> opens_with_status PlainOpen p = true.
Proof.
  unfold worker, opens_with_status.
  destruct (PlainOpen p) as [repo|e]; [|simpl; split; discriminate].
  destruct (repo_Worktree repo) as [wt|e]; [|simpl; split; discriminate].
  destruct (wt_Status wt) as [status|e]; [|simpl; split; discriminate].
  simpl. split; reflexivity.
Qed.

(** A successful worker's status carries its own path. *)
Lemma worker_Path (p : string) : rr_err (w p) = None -> Path (rr_status (w p)) = p.
Proof.
  unfold worker.
  destruct (PlainOpen p) as [repo|e]; [|discriminate].
  destruct (repo_Worktree repo) as [wt|e]; [|discriminate].
  destruct (wt_Status wt) as [status|e]; [|discriminate].
  intros _. simpl.
  destruct (negb (Clean _)); [|reflexivity].
  destruct (IsDirty _ && showChanges); simpl; rewrite ApplySnooze_Path; reflexivity.
Qed.
End WorkerFacts.

Section RunFacts.
Local Open Scope list_scope.
Variable PlainOpen : string -> result Repository.
Variable stash_exists : string -> bool.
Variable filepath_IsAbs : string -> bool.
Variable filepath_Abs : string -> string.
Variable filepath_Join : string -> string -> string.
Variable filepath_Clean : string -> string.
Variable time_Parse : string -> option Z.
Variable time_Now : Z.
Variable showChanges : bool.
Variable ignoreConfig : option IgnoreConfig.
Variable scanPath : string.

Local Abbreviation w :=
  (worker PlainOpen stash_exists filepath_IsAbs filepath_Abs filepath_Join filepath_Clean
     time_Parse time_Now showChanges ignoreConfig scanPath).

Lemma visited_Path (concurrency : nat) (paths : list string) (st : ScanState) (q : ProjectStatus) :
  scan_reach w concurrency (scan_init paths) st -> In q (visited st) ->
  exists p, In p paths /\ opens_with_status PlainOpen p = true /\ q = rr_status (w p) /\
            Path q = p /\ Clean q = false.
Proof.
  intros Hr Hq. destruct (scan_inv_reach _ _ paths st Hr) as [_ _ _ (c & Hp & Hv & _)].
  rewrite Hv in Hq. apply In_expected in Hq as (p & Hin & He & -> & Hc).
  exists p. repeat match goal with |- _ /\ _ => split end.
  - rewrite Hp. apply in_or_app. left. exact Hin.
  - apply (worker_err_None PlainOpen stash_exists filepath_IsAbs filepath_Abs filepath_Join
             filepath_Clean time_Parse time_Now showChanges ignoreConfig scanPath p), He.
  - reflexivity.
  - apply worker_Path, He.
  - exact Hc.
Qed.

(** C3: in every interleaving of [run] (workers may finish in any
    order), what the consumer has yielded so far is the sequence of
    reportable statuses of a prefix of the sorted [repoPaths], so the
    yielded paths are always in sorted order; once the consumer is done
    it has yielded those of all [repoPaths]. *)
Theorem run_yields_sorted (concurrency : nat) (files : list DirEntry) (st : ScanState) :
  let paths := repoPaths filepath_Join scanPath files in
  scan_reach w concurrency (scan_init paths) st ->
  StronglySorted str_le paths /\
  StronglySorted str_le (map Path (visited st)) /\
  (exists consumed rest, paths = consumed ++ rest /\ visited st = expected w consumed) /\
  (remaining st = [] -> visited st = expected w paths).
Proof.
  intros paths Hr.
  pose proof (sort_strings_sorted
                (map (fun f => filepath_Join scanPath (de_Name f)) (filter de_IsDir files))) as Hs.
  fold (repoPaths filepath_Join scanPath files) in Hs. fold paths in Hs.
  destruct (scan_inv_reach _ _ paths st Hr) as [_ _ _ (c & Hp & Hv & _)].
  repeat match goal with |- _ /\ _ => split end.
  - exact Hs.
  - rewrite Hv. apply expected_sorted.
    + intros p. apply worker_Path.
    + rewrite Hp in Hs. eapply StronglySorted_app_l; exact Hs.
  - exists c, (remaining st). auto.
  - intros Hrem. apply (scan_final _ _ paths st Hr Hrem).
Qed.

(** C8: a path whose repository cannot be opened, or whose worktree or
    status cannot be read, gets an error in the shared map once its
    worker has stored, and no yielded status is for it; the scan goes
    on (with a positive [concurrency] some step is always enabled while
    the consumer waits, and every run ends), and when it is done every
    sibling that opened and is not clean has been yielded. *)
Theorem run_error_isolation (concurrency : nat) (files : list DirEntry) (st : ScanState)
    (p : string) :
  let paths := repoPaths filepath_Join scanPath files in
  scan_reach w concurrency (scan_init paths) st ->
  In p paths ->
  opens_with_status PlainOpen p = false ->
  (In p (stored st) \/ In p (released st) \/ In p (finished st) ->
     exists r, lookup_result (results st) p = Some r /\ rr_err r <> None) /\
  (forall q, In q (visited st) -> Path q <> p) /\
  (0 < concurrency -> remaining st <> [] -> exists st', scan_step w concurrency st st') /\
  Acc (fun b a => scan_step w concurrency a b) st /\
  (remaining st = [] ->
     In p (finished st) /\
     (exists r, lookup_result (results st) p = Some r /\ rr_err r <> None) /\
     forall q, In q paths -> opens_with_status PlainOpen q = true ->
               Clean (rr_status (w q)) = false -> In (rr_status (w q)) (visited st)).
Proof.
  intros paths Hr Hin Hbad.
  pose proof (scan_inv_reach _ _ paths st Hr) as Hinv.
  destruct Hinv as [Hres Hstored _ _].
  assert (Herr : rr_err (w p) <> None).
  { intros E. apply (worker_err_None PlainOpen stash_exists filepath_IsAbs filepath_Abs
                       filepath_Join filepath_Clean time_Parse time_Now showChanges
                       ignoreConfig scanPath p) in E. congruence. }
  assert (Hfound : In p (stored st) \/ In p (released st) \/ In p (finished st) ->
                   exists r, lookup_result (results st) p = Some r /\ rr_err r <> None).
  { intros H. apply Hstored in H.
    destruct (lookup_result (results st) p) as [r|] eqn:E; [|congruence].
    exists r. split; [reflexivity|]. rewrite (Hres p r E). exact Herr. }
  repeat match goal with |- _ /\ _ => split end.
  - exact Hfound.
  - intros q Hq Hpq.
    destruct (visited_Path concurrency paths st q Hr Hq) as (p' & _ & Hok & _ & Hpath & _).
    congruence.
  - intros Hc Hrem. apply (scan_progress _ _ paths st Hc Hr Hrem).
  - apply scan_terminates.
  - intros Hrem. destruct (scan_final _ _ paths st Hr Hrem) as [Hv Hf].
    repeat match goal with |- _ /\ _ => split end.
    + apply Hf, Hin.
    + apply Hfound. right. right. apply Hf, Hin.
    + intros q Hq Hok Hc. rewrite Hv. apply In_expected. exists q.
      repeat match goal with |- _ /\ _ => split end; try assumption; try reflexivity.
      apply (worker_err_None PlainOpen stash_exists filepath_IsAbs filepath_Abs
               filepath_Join filepath_Clean time_Parse time_Now showChanges
               ignoreConfig scanPath q), Hok.
Qed.
End RunFacts.

(* ------------------------------------------------------------------ *)
(** ** Durations *)

Example pd_90m : parseSnoozeDuration " 1H30m" = Ok (90 * Minute)%Z.
Proof. vm_compute. reflexivity. Qed.

Example pd_4m : parseSnoozeDuration "4m" = Ok (4 * Minute)%Z.
Proof. vm_compute. reflexivity. Qed.

Example pd_frac : ParseDuration "1.5h" = Ok (90 * Minute)%Z.
Proof. vm_compute. reflexivity. Qed.

(** C9: [parseSnoozeDuration] maps ["2d"] to 48 hours, ["3w"] to 504
    hours and ["1y"] to 8760 hours; ["bogus"] gives a validation error,
    as does every string (after lower-casing and trimming) that neither
    [time.ParseDuration] accepts nor the pattern [^(\d+)([dwmy])$]
    matches. *)
Theorem parseSnoozeDuration_units :
  parseSnoozeDuration "2d" = Ok (48 * Hour)%Z /\
  parseSnoozeDuration "3w" = Ok (504 * Hour)%Z /\
  parseSnoozeDuration "1y" = Ok (8760 * Hour)%Z /\
  (exists msg, parseSnoozeDuration "bogus" = Err (ErrorString msg)) /\
  forall s,
    (exists e, ParseDuration (TrimSpace (ToLower s)) = Err e) ->
    FindStringSubmatch_dwmy (TrimSpace (ToLower s)) = None ->
    exists msg, parseSnoozeDuration s = Err (ErrorString msg).
Proof.
  repeat match goal with |- _ /\ _ => split end.
  - vm_compute. reflexivity.
  - vm_compute. reflexivity.
  - vm_compute. reflexivity.
  - eexists. vm_compute. reflexivity.
  - intros s [e He] Hm. unfold parseSnoozeDuration. rewrite He, Hm. eexists. reflexivity.
Qed.

(* ------------------------------------------------------------------ *)
(** ** The properties at concrete inputs *)

Lemma ApplySnooze_monotone_witness :
  IsDirty (ApplySnooze ex_IsAbs ex_Abs ex_Join ex_Clean ex_Parse ex_Now
             "/s/r" ex_dirty_project ex_config_future "/s") = false /\
  suppressed_by ex_IsAbs ex_Abs ex_Join ex_Clean ex_Parse ex_Now
    ex_config_future "/s/r" "/s" DirtyWorkdir.
Proof.
  destruct (ApplySnooze_monotone ex_IsAbs ex_Abs ex_Join ex_Clean ex_Parse ex_Now
              "/s/r" ex_dirty_project ex_config_future "/s") as (_ & _ & _ & _ & Hd & _).
  destruct Hd as (_ & H2 & H3); [vm_compute; discriminate|].
  split; [exact H2 | exact H3].
Defined.

Lemma NewProject_ApplySnooze_flags_witness :
  isDirtySnoozed (ApplySnooze ex_IsAbs ex_Abs ex_Join ex_Clean ex_Parse ex_Now
                    "/s/r" (NewProject "/s/r" true false true) ex_config_future "/s") = true /\
  IsDirty (ApplySnooze ex_IsAbs ex_Abs ex_Join ex_Clean ex_Parse ex_Now
             "/s/r" (NewProject "/s/r" true false true) ex_config_future "/s") = false.
Proof.
  destruct (NewProject_ApplySnooze_flags ex_IsAbs ex_Abs ex_Join ex_Clean ex_Parse ex_Now
              "/s/r" true false true "/s/r" ex_config_future "/s") as (Hd & _).
  split; [vm_compute; reflexivity|]. apply Hd. vm_compute. reflexivity.
Defined.

Lemma isBranchUpstreamed_ancestry_witness :
  isBranchUpstreamed
    (ex_repo [ex_ref "refs/heads/main" 1; ex_ref "refs/remotes/origin/main" 2])
    "main" "main" = (true, None) /\
  forall c,
    reachable (repo_commits (ex_repo [ex_ref "refs/heads/main" 1; ex_ref "refs/remotes/origin/main" 2])) 1 c ->
    reachable (repo_commits (ex_repo [ex_ref "refs/heads/main" 1; ex_ref "refs/remotes/origin/main" 2])) 2 c.
Proof.
  destruct (isBranchUpstreamed_ancestry
              (ex_repo [ex_ref "refs/heads/main" 1; ex_ref "refs/remotes/origin/main" 2])
              "main" "main" "refs/heads/main" "refs/remotes/origin/main" 1 2)
    as (Hs & Hiff & _);
    [vm_compute; reflexivity | vm_compute; reflexivity | vm_compute; discriminate
    | vm_compute; reflexivity | vm_compute; discriminate |].
  split; [vm_compute; reflexivity|]. apply Hiff. vm_compute. reflexivity.
Defined.

Lemma isBranchUpstreamed_remote_not_found_witness :
  isBranchUpstreamed (ex_repo [ex_ref "refs/heads/feature" 1]) "feature" "feature"
  = (false, Some ErrReferenceNotFound).
Proof.
  apply (isBranchUpstreamed_remote_not_found (ex_repo [ex_ref "refs/heads/feature" 1])
           "feature" "feature" "refs/heads/feature" 1).
  - vm_compute. reflexivity.
  - vm_compute. discriminate.
  - simpl. intros r [<- | []]. vm_compute. discriminate.
Defined.

Lemma run_yields_sorted_witness :
  finished (ex_scan "") = ["/s/a"; "/s/b"; "/s/c"] /\
  StronglySorted str_le (map Path (visited (ex_scan ""))) /\
  map Path (visited (ex_scan "")) = ["/s/a"; "/s/b"; "/s/c"].
Proof.
  destruct (run_yields_sorted (ex_PlainOpen "") ex_no_stash ex_IsAbs ex_Abs ex_Join ex_Clean
              ex_Parse ex_Now false None "/s" 3 ex_files (ex_scan ""))
    as (_ & Hs & _).
  - apply (exec_schedule_reach (ex_worker "") 3 (scan_init ex_paths) ex_schedule
             (scan_init ex_paths)); [apply reach_refl | vm_compute; reflexivity].
  - split; [vm_compute; reflexivity|]. split; [exact Hs | vm_compute; reflexivity].
Defined.

Lemma run_error_isolation_witness :
  (exists r, lookup_result (results (ex_scan "/s/b")) "/s/b" = Some r /\ rr_err r <> None) /\
  map Path (visited (ex_scan "/s/b")) = ["/s/a"; "/s/c"].
Proof.
  destruct (run_error_isolation (ex_PlainOpen "/s/b") ex_no_stash ex_IsAbs ex_Abs ex_Join
              ex_Clean ex_Parse ex_Now false None "/s" 3 ex_files (ex_scan "/s/b") "/s/b")
    as (_ & _ & _ & _ & Hend).
  - apply (exec_schedule_reach (ex_worker "/s/b") 3 (scan_init ex_paths) ex_schedule
             (scan_init ex_paths)); [apply reach_refl | vm_compute; reflexivity].
  - vm_compute. right. left. reflexivity.
  - vm_compute. reflexivity.
  - destruct Hend as (_ & Hr & _); [vm_compute; reflexivity|].
    split; [exact Hr | vm_compute; reflexivity].
Defined.

Lemma parseSnoozeDuration_units_witness :
  exists msg, parseSnoozeDuration "bogus" = Err (ErrorString msg).
Proof.
  destruct parseSnoozeDuration_units as (_ & _ & _ & _ & H).
  apply H.
  - eexists. vm_compute. reflexivity.
  - vm_compute. reflexivity.
Defined.

(* ------------------------------------------------------------------ *)
(** ** Display *)

Fixpoint last_char (s : string) : option ascii :=
  match s with
  | EmptyString => None
  | String c EmptyString => Some c
  | String _ s' => last_char s'
  end.

Lemma last_char_cons (c : ascii) (s : string) :
  last_char (String c s) = match last_char s with Some x => Some x | None => Some c end.
Proof.
  destruct s as [|d s]; [reflexivity|]. simpl.
  induction s as [|e s IH] in d |- *; [reflexivity|].
  simpl. destruct s; [reflexivity|]. apply (IH e).
Qed.

Lemma last_char_app (s t : string) :
  last_char (s ++ t) = match last_char t with Some c => Some c | None => last_char s end.
Proof.
  induction s as [|c s IH].
  - simpl. destruct (last_char t); reflexivity.
  - change (String c s ++ t) with (String c (s ++ t)). rewrite !last_char_cons, IH. destruct (last_char t), (last_char s); reflexivity.
Qed.

Lemma string_length_app (s t : string) :
  String.length (s ++ t) = String.length s + String.length t.
Proof. induction s as [|c s IH]; simpl; [reflexivity | rewrite IH; reflexivity]. Qed.

Lemma string_app_cancel_r (s t u : string) : s ++ u = t ++ u -> s = t.
Proof.
  revert t. induction s as [|c s IH]; intros [|d t]; simpl; intros H.
  - reflexivity.
  - apply (f_equal String.length) in H. simpl in H. rewrite string_length_app in H. lia.
  - apply (f_equal String.length) in H. simpl in H. rewrite string_length_app in H. lia.
  - injection H as -> H. f_equal. apply IH, H.
Qed.

(** [displayProjectStatus] prints nothing exactly when no emoji applies
    and [filepath.Base] leaves the path unchanged: the comparison is with
    the full path, so a clean project under a directory still gets a bare
    ["name: "] line, and a line with an emoji is always printed. *)
Theorem displayProjectStatus_silent (filepath_Base : string -> string) (project : ProjectStatus) :
  displayProjectStatus filepath_Base project = None <->
  IsDirty project = false /\ HasStash project = false /\ Upstreamed project = true /\
  filepath_Base (Path project) = Path project.
Proof.
  unfold displayProjectStatus.
  assert (Hne : forall e c, last_char e = Some c -> c <> " "%char ->
                forall x, String.eqb (x ++ e) (Path project ++ ": ") = false).
  { intros e c He Hc x. apply String.eqb_neq. intros H.
    apply (f_equal last_char) in H. rewrite !last_char_app, He in H. simpl in H.
    congruence. }
  destruct (IsDirty project), (HasStash project), (Upstreamed project); simpl;
    rewrite ?Hne with (c := ascii_of_nat 167) by (reflexivity || discriminate);
    rewrite ?Hne with (c := ascii_of_nat 143) by (reflexivity || discriminate);
    rewrite ?Hne with (c := ascii_of_nat 164) by (reflexivity || discriminate);
    simpl; try (split; [discriminate | intros (H1 & H2 & H3 & _); discriminate]).
  destruct (String.eqb (filepath_Base (Path project) ++ ": ") (Path project ++ ": ")) eqn:E; simpl.
  - apply String.eqb_eq, string_app_cancel_r in E. tauto.
  - split; [discriminate|]. intros (_ & _ & _ & HB). apply String.eqb_neq in E.
    exfalso. apply E. rewrite HB. reflexivity.
Qed.

(* ------------------------------------------------------------------ *)
(** ** Durations, for every numeral *)

Section DurationFacts.
Local Open Scope Z_scope.

Lemma digit_facts (c : ascii) :
  is_digit c = true ->
  to_lower_ascii c = c /\ is_space c = false /\ Ascii.eqb c "-" = false /\
  Ascii.eqb c "+" = false /\ Ascii.eqb c "." = false /\
  0 <= digit_value c <= 9.
Proof.
  destruct c as [[] [] [] [] [] [] [] []]; vm_compute; try discriminate;
    intros _; repeat split; discriminate.
Qed.

Lemma all_digits_cons (c : ascii) (s : string) :
  all_digits (String c s) = is_digit c && all_digits s.
Proof. reflexivity. Qed.

Lemma string_app_assoc (s t u : string) : (s ++ t) ++ u = s ++ (t ++ u).
Proof. induction s as [|c s IH]; simpl; [reflexivity | rewrite IH; reflexivity]. Qed.

Lemma ToLower_app (s t : string) : ToLower (s ++ t) = ToLower s ++ ToLower t.
Proof. induction s as [|c s IH]; simpl; [reflexivity | rewrite IH; reflexivity]. Qed.

Lemma ToLower_digits (n : string) : all_digits n = true -> ToLower n = n.
Proof.
  induction n as [|c n IH]; [reflexivity|].
  rewrite all_digits_cons. intros H. apply andb_true_iff in H as [Hc Hn].
  simpl. rewrite (proj1 (digit_facts c Hc)), IH by exact Hn. reflexivity.
Qed.

Lemma rev_string_app (s t acc : string) :
  rev_string (s ++ t) acc = rev_string t (rev_string s acc).
Proof. revert acc. induction s as [|c s IH]; intros acc; simpl; [reflexivity | apply IH]. Qed.

Lemma rev_string_acc (s acc : string) : rev_string s acc = rev_string s "" ++ acc.
Proof.
  revert acc. induction s as [|c s IH]; intros acc; simpl; [reflexivity|].
  rewrite IH, (IH (String c "")), string_app_assoc. reflexivity.
Qed.

Lemma rev_string_involutive (s : string) : rev_string (rev_string s "") "" = s.
Proof.
  induction s as [|c s IH]; [reflexivity|]. simpl.
  rewrite (rev_string_acc s (String c "")), rev_string_app, IH. reflexivity.
Qed.

(** [strings.TrimSpace] keeps a string whose first and last bytes are
    not white space. *)
Lemma TrimSpace_keep (c d : ascii) (m : string) :
  is_space c = false -> is_space d = false ->
  TrimSpace (String c (m ++ String d "")) = String c (m ++ String d "").
Proof.
  intros Hc Hd. unfold TrimSpace. simpl. rewrite Hc.
  change (rev_string (m ++ String d "") (String c "")) with
         (rev_string (String c (m ++ String d "")) "").
  assert (E : rev_string (String c (m ++ String d "")) "" =
              String d (rev_string m (String c ""))).
  { simpl. rewrite rev_string_app. reflexivity. }
  rewrite E. simpl. rewrite Hd. rewrite <- E. apply rev_string_involutive.
Qed.

Lemma digits_value_ge (x : Z) (n : string) :
  0 <= x -> all_digits n = true -> x <= digits_value x n.
Proof.
  revert x. induction n as [|c n IH]; intros x Hx H; simpl; [lia|].
  rewrite all_digits_cons in H. apply andb_true_iff in H as [Hc Hn].
  pose proof (proj2 (proj2 (proj2 (proj2 (proj2 (digit_facts c Hc)))))).
  specialize (IH (x * 10 + digit_value c) ltac:(lia) Hn). lia.
Qed.

(** [time.leadingInt] reads a whole numeral, failing exactly when its
    value passes [1<<63]. *)
Lemma leadingInt_digits (x : Z) (n r : string) :
  0 <= x <= 2 ^ 63 -> all_digits n = true ->
  (forall c r', r = String c r' -> is_digit c = false) ->
  leadingInt x (n ++ r) =
  if Z.leb (digits_value x n) (2 ^ 63) then Some (digits_value x n, r) else None.
Proof.
  revert x. induction n as [|c n IH]; intros x Hx Hn Hr.
  - change (digits_value x "") with x. change ("" ++ r) with r.
    rewrite (proj2 (Z.leb_le x (2 ^ 63)) ltac:(lia)).
    destruct r as [|c r']; [reflexivity|]. cbn [leadingInt].
    rewrite (Hr c r' eq_refl). reflexivity.
  - rewrite all_digits_cons in Hn. apply andb_true_iff in Hn as [Hc Hn].
    pose proof (proj2 (proj2 (proj2 (proj2 (proj2 (digit_facts c Hc)))))) as Hd.
    change (String c n ++ r) with (String c (n ++ r)).
    cbn [leadingInt digits_value]. rewrite Hc.
    pose proof (digits_value_ge (x * 10 + digit_value c) n ltac:(lia) Hn) as Hge.
    destruct (Z.ltb_spec (2 ^ 63 / 10) x) as [Hbig|Hsmall].
    + destruct (Z.leb_spec (digits_value (x * 10 + digit_value c) n) (2 ^ 63)); [|reflexivity].
      exfalso. change (2 ^ 63) with 9223372036854775808 in *.
      assert (Hb : 922337203685477580 < x) by exact Hbig. lia.
    + destruct (Z.ltb_spec (2 ^ 63) (x * 10 + digit_value c)).
      * destruct (Z.leb_spec (digits_value (x * 10 + digit_value c) n) (2 ^ 63)); [lia|reflexivity].
      * apply IH; [lia | exact Hn | exact Hr].
Qed.

Lemma substring_app_l (n t : string) : substring 0 (String.length n) (n ++ t) = n.
Proof. induction n as [|c n IH]; simpl; [destruct t; reflexivity | rewrite IH; reflexivity]. Qed.

Lemma substring_app_r (n t : string) (k : nat) :
  substring (String.length n) k (n ++ t) = substring 0 k t.
Proof. induction n as [|c n IH]; simpl; [reflexivity | exact IH]. Qed.

(** A numeral followed by a unit [time.ParseDuration] knows. *)
Lemma ParseDuration_numeral (n u : string) (unit : Z) :
  n <> "" -> all_digits n = true ->
  u <> "" -> split_unit u = (u, "") -> unitMap u = Some unit -> 0 < unit ->
  (forall c r', u = String c r' -> is_digit c = false /\ Ascii.eqb c "." = false) ->
  digits_value 0 n * unit <= 2 ^ 63 - 1 ->
  ParseDuration (n ++ u) = Ok (digits_value 0 n * unit).
Proof.
  intros Hne Hn Hu Hsplit Hunit Hpos Hu0 Hle.
  set (v := digits_value 0 n) in *.
  assert (Hv0 : 0 <= v) by (apply (digits_value_ge 0 n); [lia | exact Hn]).
  assert (Hv : v <= 2 ^ 63) by nia.
  destruct n as [|c n']; [congruence|].
  pose proof (all_digits_cons c n') as Hcons. rewrite Hn in Hcons.
  symmetry in Hcons. apply andb_true_iff in Hcons as [Hc Hn'].
  destruct (digit_facts c Hc) as (_ & _ & Hminus & Hplus & Hdot & _).
  assert (HL : leadingInt 0 (String c n' ++ u) = Some (v, u)).
  { rewrite leadingInt_digits; [| lia | exact Hn | ].
    - fold v. destruct (Z.leb_spec v (2 ^ 63)); [reflexivity | lia].
    - intros c' r' E. apply (Hu0 c' r' E). }
  assert (Hlen : String.length (String c n' ++ u) <> String.length u).
  { rewrite string_length_app. simpl. lia. }
  unfold ParseDuration. simpl (match String c n' ++ u with _ => _ end).
  rewrite Hminus, Hplus.
  assert (H0 : String.eqb (String c (n' ++ u)) "0" = false).
  { apply String.eqb_neq. intros E. injection E as _ E.
    destruct n', u; simpl in E; congruence. }
  assert (H1 : String.eqb (String c (n' ++ u)) "" = false) by reflexivity.
  change (String c n' ++ u) with (String c (n' ++ u)) in HL, Hlen.
  rewrite H0, H1. simpl (String.length (String c (n' ++ u))).
  cbn [pd_loop]. unfold pd_component.
  cbn [Ascii.eqb]. rewrite Hc, orb_true_r. cbn [negb].
  rewrite HL.
  apply Nat.eqb_neq in Hlen. rewrite Hlen. cbn [negb].
  destruct u as [|cu u']; [congruence|].
  destruct (Hu0 cu u' eq_refl) as [_ Hdotu]. rewrite Hdotu.
  cbn [negb andb]. rewrite Hsplit. cbn [String.eqb]. rewrite Hunit.
  assert (Hdiv : v <= 2 ^ 63 / unit) by (apply Z.div_le_lower_bound; lia).
  destruct (Z.ltb_spec (2 ^ 63 / unit) v); [lia|].
  cbn [Z.ltb Z.compare]. simpl (Z.ltb 0 0).
  destruct (Z.ltb_spec (2 ^ 63) (v * unit)); [lia|].
  destruct (Z.ltb_spec (2 ^ 63) (0 + v * unit)); [lia|].
  change (2 ^ 63 - 1) with 9223372036854775807 in Hle.
  destruct (String.length (n' ++ String cu u')); simpl;
  destruct (Z.ltb_spec 9223372036854775807 (v * unit)); try lia; reflexivity.
Qed.
(** A numeral followed by a letter [time.ParseDuration] does not know. *)
Lemma ParseDuration_numeral_unknown (n u : string) :
  n <> "" -> all_digits n = true ->
  u <> "" -> split_unit u = (u, "") -> unitMap u = None ->
  (forall c r', u = String c r' -> is_digit c = false /\ Ascii.eqb c "." = false) ->
  exists e, ParseDuration (n ++ u) = Err e.
Proof.
  intros Hne Hn Hu Hsplit Hunit Hu0.
  destruct n as [|c n']; [congruence|].
  pose proof (all_digits_cons c n') as Hcons. rewrite Hn in Hcons.
  symmetry in Hcons. apply andb_true_iff in Hcons as [Hc Hn'].
  destruct (digit_facts c Hc) as (_ & _ & Hminus & Hplus & Hdot & _).
  assert (Hlen : String.length (String c n' ++ u) <> String.length u).
  { rewrite string_length_app. simpl. lia. }
  pose proof (leadingInt_digits 0 (String c n') u ltac:(lia) Hn
                (fun c' r' E => proj1 (Hu0 c' r' E))) as HL.
  change (String c n' ++ u) with (String c (n' ++ u)) in HL, Hlen |- *.
  unfold ParseDuration. cbv beta iota. rewrite Hminus, Hplus.
  assert (H0 : String.eqb (String c (n' ++ u)) "0" = false).
  { apply String.eqb_neq. intros E. injection E as _ E.
    destruct n', u; simpl in E; congruence. }
  assert (H1 : String.eqb (String c (n' ++ u)) "" = false) by reflexivity.
  rewrite H0, H1. simpl (String.length (String c (n' ++ u))).
  cbn [pd_loop]. unfold pd_component.
  cbn [Ascii.eqb]. rewrite Hc, orb_true_r. cbn [negb].
  rewrite HL.
  destruct (Z.leb (digits_value 0 (String c n')) (2 ^ 63)); [|eexists; reflexivity].
  apply Nat.eqb_neq in Hlen. rewrite Hlen. cbn [negb].
  destruct u as [|cu u']; [congruence|].
  destruct (Hu0 cu u' eq_refl) as [_ Hdotu]. rewrite Hdotu.
  cbn [negb andb]. rewrite Hsplit. cbn [String.eqb]. rewrite Hunit.
  eexists. reflexivity.
Qed.

Lemma trim_lower_numeral (n u u0 : string) (d : ascii) :
  n <> "" -> all_digits n = true -> u = u0 ++ String d "" -> is_space d = false ->
  ToLower u = u -> TrimSpace (ToLower (n ++ u)) = n ++ u.
Proof.
  intros Hne Hn Hu Hd Hl.
  rewrite ToLower_app, ToLower_digits, Hl by exact Hn.
  destruct n as [|c n']; [congruence|].
  pose proof (all_digits_cons c n') as Hcons. rewrite Hn in Hcons.
  symmetry in Hcons. apply andb_true_iff in Hcons as [Hc _].
  change (String c n' ++ u) with (String c (n' ++ u)).
  rewrite Hu, <- string_app_assoc. apply TrimSpace_keep; [|exact Hd].
  apply (digit_facts c Hc).
Qed.
End DurationFacts.

Section DurationTheorems.
Local Open Scope Z_scope.

(** [parseSnoozeDuration] on a decimal numeral [n] followed by one of
    [time.ParseDuration]'s units is [n] times that unit whenever the
    product fits in a [time.Duration]; in particular ["<n>m"] means [n]
    minutes, and the 30-day reading of [m] is never reached for such
    inputs. *)
Theorem parseSnoozeDuration_numeral_std_unit (n u : string) (unit : Z) :
  n <> "" -> all_digits n = true ->
  In (u, unit) [("ns", Nanosecond); ("us", Microsecond); (micro_sign_s, Microsecond);
                (greek_mu_s, Microsecond); ("ms", Millisecond); ("s", Second);
                ("m", Minute); ("h", Hour)] ->
  digits_value 0 n * unit <= 2 ^ 63 - 1 ->
  parseSnoozeDuration (n ++ u) = Ok (digits_value 0 n * unit).
Proof.
  intros Hne Hn Hin Hle.
  assert (Hgen : forall u0 d, u = u0 ++ String d "" -> is_space d = false -> ToLower u = u ->
                 u <> "" -> split_unit u = (u, "") -> unitMap u = Some unit -> 0 < unit ->
                 (forall c r', u = String c r' -> is_digit c = false /\ Ascii.eqb c "." = false) ->
                 parseSnoozeDuration (n ++ u) = Ok (digits_value 0 n * unit)).
  { intros u0 d Hu Hd Hl Hne' Hs Hm Hp H0.
    unfold parseSnoozeDuration. rewrite (trim_lower_numeral n u u0 d Hne Hn Hu Hd Hl).
    rewrite (ParseDuration_numeral n u unit Hne Hn Hne' Hs Hm Hp H0 Hle). reflexivity. }
  simpl in Hin.
  repeat destruct Hin as [Hin|Hin]; try contradiction; injection Hin as <- <-;
    [ apply (Hgen "n" "s"%char) | apply (Hgen "u" "s"%char)
    | apply (Hgen (String (ascii_of_nat 194) (String (ascii_of_nat 181) "")) "s"%char)
    | apply (Hgen (String (ascii_of_nat 206) (String (ascii_of_nat 188) "")) "s"%char) | apply (Hgen "m" "s"%char)
    | apply (Hgen "" "s"%char) | apply (Hgen "" "m"%char) | apply (Hgen "" "h"%char) ];
    try reflexivity; try discriminate;
    try (unfold Nanosecond, Microsecond, Millisecond, Second, Minute, Hour; lia);
    intros c r' E; unfold micro_sign_s, greek_mu_s in E; injection E as <- <-;
    split; reflexivity.
Qed.

(** [parseSnoozeDuration] on a decimal numeral [n] followed by [d], [w]
    or [y]: [time.ParseDuration] rejects it and the day arithmetic of
    the code applies, so the result is [n] times 24, 168 or 8760 hours
    reduced modulo 2^64 into the signed range ([time.Duration]
    multiplication wraps); it is exact when the product fits, and a
    numeral past the [int] range is an error. *)
Theorem parseSnoozeDuration_numeral_day_unit (n u : string) (hours : Z) :
  n <> "" -> all_digits n = true ->
  In (u, hours) [("d", 24); ("w", 168); ("y", 8760)] ->
  let v := digits_value 0 n in
  (v <= 2 ^ 63 - 1 -> parseSnoozeDuration (n ++ u) = Ok (wrap64 (Hour * hours * v))) /\
  (Hour * hours * v <= 2 ^ 63 - 1 -> parseSnoozeDuration (n ++ u) = Ok (Hour * hours * v)) /\
  (2 ^ 63 - 1 < v -> exists e, parseSnoozeDuration (n ++ u) = Err e).
Proof.
  intros Hne Hn Hin v.
  assert (Hv0 : 0 <= v) by (apply (digits_value_ge 0 n); [lia | exact Hn]).
  assert (Hu : exists c, u = String c "" /\ is_digit c = false /\ Ascii.eqb c "." = false /\
                         is_space c = false /\ ToLower u = u /\ unitMap u = None /\
                         split_unit u = (u, "") /\ String.eqb u "m" = false /\
                         (String.eqb u "d" || String.eqb u "w" || String.eqb u "m" ||
                          String.eqb u "y") = true).
  { simpl in Hin. repeat destruct Hin as [Hin|Hin]; try contradiction;
      injection Hin as <- <-; eexists; repeat split. }
  destruct Hu as (c & -> & Hd & Hdot & Hsp & Hl & Hm & Hs & Hnm & Hdwmy).
  assert (Htrim : TrimSpace (ToLower (n ++ String c "")) = n ++ String c "")
    by exact (trim_lower_numeral n _ "" c Hne Hn eq_refl Hsp Hl).
  destruct (ParseDuration_numeral_unknown n (String c "") Hne Hn ltac:(discriminate) Hs Hm
              (fun c' r' E => ltac:(injection E as <- _; split; assumption))) as [e He].
  assert (Hfind : FindStringSubmatch_dwmy (n ++ String c "") = Some (n, String c "")).
  { unfold FindStringSubmatch_dwmy. rewrite string_length_app. simpl String.length.
    destruct (Nat.ltb_spec (String.length n + 1) 2).
    { destruct n; [congruence | simpl in *; lia]. }
    replace (String.length n + 1 - 1)%nat with (String.length n) by lia.
    rewrite substring_app_l, substring_app_r. cbn [substring]. rewrite Hn, Hdwmy. reflexivity. }
  assert (Hres : parseSnoozeDuration (n ++ String c "") =
                 match Atoi n with
                 | Err e => Err e
                 | Ok value =>
                     if String.eqb (String c "") "d" then Ok (wrap64 (Hour * 24 * value))
                     else if String.eqb (String c "") "w" then Ok (wrap64 (Hour * 24 * 7 * value))
                     else if String.eqb (String c "") "m" then Ok (wrap64 (Hour * 24 * 30 * value))
                     else if String.eqb (String c "") "y" then Ok (wrap64 (Hour * 24 * 365 * value))
                     else Err (ErrorString ("unsupported duration unit: " ++ String c ""))
                 end).
  { unfold parseSnoozeDuration. rewrite Htrim, He, Hfind. reflexivity. }
  assert (Hday : forall value, 0 <= value ->
            (if String.eqb (String c "") "d" then Ok (wrap64 (Hour * 24 * value))
             else if String.eqb (String c "") "w" then Ok (wrap64 (Hour * 24 * 7 * value))
             else if String.eqb (String c "") "m" then Ok (wrap64 (Hour * 24 * 30 * value))
             else if String.eqb (String c "") "y" then Ok (wrap64 (Hour * 24 * 365 * value))
             else Err (ErrorString ("unsupported duration unit: " ++ String c "")))
            = Ok (wrap64 (Hour * hours * value)) :> result Z).
  { intros value _. simpl in Hin.
    repeat destruct Hin as [Hin|Hin]; try contradiction; injection Hin as Hc <-;
      rewrite <- Hc; cbn -[wrap64 Hour]; repeat f_equal; ring. }
  unfold Atoi in Hres. fold v in Hres.
  repeat match goal with |- _ /\ _ => split end.
  - intros Hle. rewrite Hres. destruct (Z.ltb_spec (2 ^ 63 - 1) v); [lia|]. apply Hday, Hv0.
  - intros Hle. rewrite Hres.
    assert (Hh : 0 < Hour * hours).
    { simpl in Hin. repeat destruct Hin as [Hin|Hin]; try contradiction;
        injection Hin as _ <-; vm_compute; reflexivity. }
    destruct (Z.ltb_spec (2 ^ 63 - 1) v); [nia|]. rewrite Hday by exact Hv0.
    unfold wrap64. rewrite Z.mod_small by (change (2 ^ 64) with (2 * 2 ^ 63); nia).
    destruct (Z.leb_spec (2 ^ 63) (Hour * hours * v)); [lia | reflexivity].
  - intros Hbig. rewrite Hres. destruct (Z.ltb_spec (2 ^ 63 - 1) v); [|lia].
    eexists. reflexivity.
Qed.
End DurationTheorems.

(* ------------------------------------------------------------------ *)
(** ** Recording a snooze *)

Lemma update_first_found (path check until : string) (pre post : list RepoEntry) (e : RepoEntry) :
  (forall x, In x pre -> entry_Path x <> path) -> entry_Path e = path ->
  update_first path check until (app pre (e :: post)) =
  Some (app pre (mkRepoEntry (entry_Path e) (set_check check until (entry_Snooze e)) :: post)).
Proof.
  intros Hpre He. induction pre as [|x pre IH]; simpl.
  - rewrite He, String.eqb_refl. reflexivity.
  - assert (Hx : String.eqb (entry_Path x) path = false)
      by (apply String.eqb_neq, Hpre; left; reflexivity).
    rewrite Hx, IH by (intros y Hy; apply Hpre; right; exact Hy). reflexivity.
Qed.

Lemma update_first_none (path check until : string) (l : list RepoEntry) :
  (forall x, In x l -> entry_Path x <> path) -> update_first path check until l = None.
Proof.
  induction l as [|x l IH]; intros Hl; simpl; [reflexivity|].
  assert (Hx : String.eqb (entry_Path x) path = false)
    by (apply String.eqb_neq, Hl; left; reflexivity).
  rewrite Hx, IH by (intros y Hy; apply Hl; right; exact Hy). reflexivity.
Qed.

Section SnoozeCheckFacts.
Variable LoadIgnoreConfig : string -> result IgnoreConfig.
Variable filepath_Abs : string -> string.
Variable filepath_Rel : string -> string -> result string.
Variable snoozeUntil_after : Z -> string.

Local Abbreviation snooze_check := (SnoozeCheck LoadIgnoreConfig filepath_Abs filepath_Rel snoozeUntil_after).
Local Abbreviation rel_path := (getRelativePath filepath_Abs filepath_Rel).

Lemma SnoozeCheck_append (project : ProjectStatus) (durationStr check scanPath : string)
    (d : Z) :
  existsb (String.eqb check) validChecks = true ->
  parseSnoozeDuration durationStr = Ok d ->
  let config := match LoadIgnoreConfig scanPath with Ok c => c | Err _ => mkIgnoreConfig [] end in
  (forall x, In x (Repos config) -> entry_Path x <> Path project) ->
  snooze_check project durationStr check scanPath =
  WriteConfig (mkIgnoreConfig (app (Repos config)
    [mkRepoEntry (rel_path (Path project) scanPath)
       (set_check check (snoozeUntil_after d) (mkSnooze "" "" ""))])).
Proof.
  intros Hc Hd config Hnone. unfold SnoozeCheck. fold config.
  rewrite Hc, Hd. simpl negb. cbv iota beta zeta.
  rewrite update_first_none by exact Hnone. reflexivity.
Qed.

(** [SnoozeCheck] with a valid check and duration, when the loaded
    configuration has an entry whose [Path] equals [project.Path]:
    the first such entry gets the new deadline for the chosen kinds
    ([set_check]) and every other entry is written back unchanged. *)
Theorem SnoozeCheck_updates_first_match (project : ProjectStatus)
    (durationStr check scanPath : string) (cfg : IgnoreConfig) (d : Z)
    (pre post : list RepoEntry) (e : RepoEntry) :
  LoadIgnoreConfig scanPath = Ok cfg ->
  In check validChecks ->
  parseSnoozeDuration durationStr = Ok d ->
  Repos cfg = app pre (e :: post) ->
  (forall x, In x pre -> entry_Path x <> Path project) ->
  entry_Path e = Path project ->
  snooze_check project durationStr check scanPath =
  WriteConfig (mkIgnoreConfig
    (app pre (mkRepoEntry (entry_Path e) (set_check check (snoozeUntil_after d) (entry_Snooze e))
              :: post))).
Proof.
  intros Hl Hc Hd Hr Hpre He. unfold SnoozeCheck. rewrite Hl, Hd, Hr.
  assert (Hv : existsb (String.eqb check) validChecks = true).
  { apply existsb_exists. exists check. split; [exact Hc | apply String.eqb_refl]. }
  rewrite Hv. simpl negb. cbv iota beta zeta.
  rewrite (update_first_found _ _ _ pre post e Hpre He). reflexivity.
Qed.

(** [SnoozeCheck] with a valid check and duration, when no entry of the
    loaded configuration has [project.Path] as its [Path]: the written
    configuration is the loaded one with one entry appended, for the
    path relative to the scan root ([getRelativePath]) and with only the
    chosen kinds set. *)
Theorem SnoozeCheck_appends_entry (project : ProjectStatus)
    (durationStr check scanPath : string) (cfg : IgnoreConfig) (d : Z) :
  LoadIgnoreConfig scanPath = Ok cfg ->
  In check validChecks ->
  parseSnoozeDuration durationStr = Ok d ->
  (forall x, In x (Repos cfg) -> entry_Path x <> Path project) ->
  snooze_check project durationStr check scanPath =
  WriteConfig (mkIgnoreConfig (app (Repos cfg)
    [mkRepoEntry (rel_path (Path project) scanPath)
       (set_check check (snoozeUntil_after d) (mkSnooze "" "" ""))])).
Proof.
  intros Hl Hc Hd Hnone.
  assert (Hv : existsb (String.eqb check) validChecks = true).
  { apply existsb_exists. exists check. split; [exact Hc | apply String.eqb_refl]. }
  pose proof (SnoozeCheck_append project durationStr check scanPath d Hv Hd) as H.
  cbv zeta in H. rewrite Hl in H. apply H, Hnone.
Qed.

(** When the ignore file cannot be loaded (missing, or failing to
    compile or decode as CUE), [SnoozeCheck] starts from an empty
    configuration: what it writes holds the new entry alone, so the
    unreadable file's other entries are overwritten. *)
Theorem SnoozeCheck_unreadable_config (project : ProjectStatus)
    (durationStr check scanPath : string) (err : error) (d : Z) :
  LoadIgnoreConfig scanPath = Err err ->
  In check validChecks ->
  parseSnoozeDuration durationStr = Ok d ->
  snooze_check project durationStr check scanPath =
  WriteConfig (mkIgnoreConfig
    [mkRepoEntry (rel_path (Path project) scanPath)
       (set_check check (snoozeUntil_after d) (mkSnooze "" "" ""))]).
Proof.
  intros Hl Hc Hd.
  assert (Hv : existsb (String.eqb check) validChecks = true).
  { apply existsb_exists. exists check. split; [exact Hc | apply String.eqb_refl]. }
  pose proof (SnoozeCheck_append project durationStr check scanPath d Hv Hd) as H.
  cbv zeta in H. rewrite Hl in H. apply H. intros x [].
Qed.
End SnoozeCheckFacts.

(** [SnoozeCheck] looks entries up by [project.Path] but stores new ones
    under the path relative to the scan root.  When the two differ (a
    scan root other than the working directory), snoozing the same
    project again, with the first write read back, appends a second
    entry instead of updating the first. *)
Theorem SnoozeCheck_repeat_appends
    (Load1 Load2 : string -> result IgnoreConfig) (filepath_Abs : string -> string)
    (filepath_Rel : string -> string -> result string) (snoozeUntil_after : Z -> string)
    (project : ProjectStatus) (ds1 c1 ds2 c2 scanPath : string)
    (cfg cfg1 cfg2 : IgnoreConfig) :
  Load1 scanPath = Ok cfg ->
  (forall x, In x (Repos cfg) -> entry_Path x <> Path project) ->
  getRelativePath filepath_Abs filepath_Rel (Path project) scanPath <> Path project ->
  SnoozeCheck Load1 filepath_Abs filepath_Rel snoozeUntil_after project ds1 c1 scanPath =
    WriteConfig cfg1 ->
  Load2 scanPath = Ok cfg1 ->
  SnoozeCheck Load2 filepath_Abs filepath_Rel snoozeUntil_after project ds2 c2 scanPath =
    WriteConfig cfg2 ->
  exists e1 e2, Repos cfg2 = app (Repos cfg) [e1; e2] /\
    entry_Path e1 = getRelativePath filepath_Abs filepath_Rel (Path project) scanPath /\
    entry_Path e2 = getRelativePath filepath_Abs filepath_Rel (Path project) scanPath.
Proof.
  intros H1 Hnone Hrel W1 H2 W2.
  set (rel := getRelativePath filepath_Abs filepath_Rel (Path project) scanPath) in *.
  unfold SnoozeCheck in W1. rewrite H1 in W1.
  destruct (negb (existsb (String.eqb c1) validChecks)); [discriminate|].
  destruct (parseSnoozeDuration ds1) as [d1|]; [|discriminate].
  rewrite update_first_none in W1 by exact Hnone. injection W1 as <-.
  unfold SnoozeCheck in W2. rewrite H2 in W2.
  destruct (negb (existsb (String.eqb c2) validChecks)); [discriminate|].
  destruct (parseSnoozeDuration ds2) as [d2|]; [|discriminate].
  rewrite update_first_none in W2.
  - injection W2 as <-. simpl. fold rel.
    eexists _, _. split; [rewrite <- app_assoc; reflexivity|]. split; reflexivity.
  - simpl. intros x Hx. apply in_app_or in Hx as [Hx | [<- | []]].
    + apply Hnone, Hx.
    + simpl. fold rel. exact Hrel.
Qed.

Lemma any_active_In (time_Parse : string -> option Z) (time_Now : Z)
    (kind : Snooze -> string) (ms : list RepoEntry) (e : RepoEntry) (t : Z) :
  In e ms -> kind (entry_Snooze e) <> "" -> time_Parse (kind (entry_Snooze e)) = Some t ->
  (time_Now < t)%Z -> any_active time_Parse time_Now kind ms = true.
Proof.
  intros Hin Hne Ht Hlt. unfold any_active. apply existsb_exists. exists e.
  split; [exact Hin|]. unfold active, isSnoozed.
  rewrite Ht. apply andb_true_intro. split.
  - apply negb_true_iff, String.eqb_neq, Hne.
  - apply Z.ltb_lt, Hlt.
Qed.

(** Snoozing a project with check ["all"] when the ignore file has no
    entry for it, then applying the written configuration: if the
    stored relative path resolves, from the scan root, to the
    repository's absolute path, and the deadline it stored parses to a
    time after [Now], the project comes out clean, whatever its dirty,
    stash and upstream flags were. *)
Theorem SnoozeCheck_all_then_ApplySnooze
    (LoadIgnoreConfig : string -> result IgnoreConfig)
    (filepath_IsAbs : string -> bool) (filepath_Abs : string -> string)
    (filepath_Join : string -> string -> string) (filepath_Clean : string -> string)
    (filepath_Rel : string -> string -> result string)
    (time_Parse : string -> option Z) (time_Now : Z) (snoozeUntil_after : Z -> string)
    (project q : ProjectStatus) (durationStr scanPath repoPath : string)
    (cfg cfg' : IgnoreConfig) (d t : Z) :
  LoadIgnoreConfig scanPath = Ok cfg ->
  (forall x, In x (Repos cfg) -> entry_Path x <> Path project) ->
  parseSnoozeDuration durationStr = Ok d ->
  SnoozeCheck LoadIgnoreConfig filepath_Abs filepath_Rel snoozeUntil_after
    project durationStr "all" scanPath = WriteConfig cfg' ->
  filepath_Clean (filepath_Join
      (if filepath_IsAbs scanPath then scanPath else filepath_Abs scanPath)
      (getRelativePath filepath_Abs filepath_Rel (Path project) scanPath)) =
    filepath_Clean (filepath_Abs repoPath) ->
  snoozeUntil_after d <> "" ->
  time_Parse (snoozeUntil_after d) = Some t -> (time_Now < t)%Z ->
  Clean (ApplySnooze filepath_IsAbs filepath_Abs filepath_Join filepath_Clean
           time_Parse time_Now repoPath q (Some cfg') scanPath) = true.
Proof.
  intros Hl Hnone Hd W Hres Hne Ht Hlt.
  pose proof (SnoozeCheck_append LoadIgnoreConfig filepath_Abs filepath_Rel snoozeUntil_after
                project durationStr "all" scanPath d eq_refl Hd) as Happ.
  cbv zeta in Happ. rewrite Hl in Happ. rewrite (Happ Hnone) in W.
  injection W as <-.
  set (newRepo := mkRepoEntry (getRelativePath filepath_Abs filepath_Rel (Path project) scanPath)
                    (set_check "all" (snoozeUntil_after d) (mkSnooze "" "" ""))).
  assert (Hin : In newRepo (filter (entry_matches filepath_IsAbs filepath_Abs filepath_Join
                 filepath_Clean repoPath scanPath) (app (Repos cfg) [newRepo]))).
  { apply filter_In. split.
    - apply in_or_app. right. left. reflexivity.
    - unfold entry_matches. simpl. rewrite Hres. apply String.eqb_refl. }
  destruct (apply_snooze_fields filepath_IsAbs filepath_Abs filepath_Join filepath_Clean
              time_Parse time_Now repoPath q (mkIgnoreConfig (app (Repos cfg) [newRepo])) scanPath)
    as (_ & _ & HD & _ & HS & _ & HU & _).
  unfold Clean. cbv zeta in HD, HS, HU. simpl Repos in HD, HS, HU.
  rewrite HD, HS, HU.
  rewrite (any_active_In time_Parse time_Now DirtyWorkdir _ newRepo t Hin Hne Ht Hlt).
  rewrite (any_active_In time_Parse time_Now Stashes _ newRepo t Hin Hne Ht Hlt).
  rewrite (any_active_In time_Parse time_Now NotUpstreamed _ newRepo t Hin Hne Ht Hlt).
  destruct (IsDirty q), (HasStash q), (Upstreamed q); reflexivity.
Qed.

(* ------------------------------------------------------------------ *)
(** ** The interactive walk *)

Section VisitFacts.
Variable PlainOpen : string -> result Repository.
Variable filepath_Base : string -> string.

Local Abbreviation vproject := (visit_project PlainOpen filepath_Base).
Local Abbreviation vfrom := (visit_from PlainOpen filepath_Base).

(** The prompts [Project k/n: name] printed for [ps], numbered from [i + 1]. *)
Local Abbreviation prompts i n ps :=
  (map (fun '(k, p) => ev_Prompt (k + 1) n (filepath_Base (Path p)))
       (combine (seq i (List.length ps)) ps)).

Lemma visit_project_blank (fuel i n : nat) (p : ProjectStatus) (input : list string) :
  Forall (fun l => Fields (TrimSpace (ToLower l)) = []) input ->
  vproject fuel i n p input = None.
Proof.
  revert input; induction fuel as [|f IH]; intros input Hin; [reflexivity|].
  destruct input as [|l rest].
  - cbn [visit_project ReadString].
    replace (Fields (TrimSpace (ToLower ""))) with (@nil string) by reflexivity.
    rewrite IH by constructor. reflexivity.
  - inversion Hin as [|? ? Hl Hrest]; subst.
    cbn [visit_project ReadString]. rewrite Hl, IH by exact Hrest. reflexivity.
Qed.

Lemma visit_project_next (f i n : nat) (p : ProjectStatus) (l : string) (args input : list string) :
  Fields (TrimSpace (ToLower l)) = "n" :: args ->
  vproject (S f) i n p (l :: input) =
  Some (ex_Next, [ev_Prompt (i + 1) n (filepath_Base (Path p))], input).
Proof. intros H. cbn [visit_project ReadString]. rewrite H. reflexivity. Qed.

Lemma visit_from_next (f i n : nat) (pre ps : list ProjectStatus) (lines input : list string) :
  List.length lines = List.length pre ->
  Forall (fun l => exists args, Fields (TrimSpace (ToLower l)) = "n" :: args) lines ->
  vfrom (S f) i n (app pre ps) (app lines input) =
  match vfrom (S f) (i + List.length pre) n ps input with
  | Some (b, evs, r) => Some (b, app (prompts i n pre) evs, r)
  | None => None
  end.
Proof.
  revert i lines; induction pre as [|p pre IH]; intros i lines Hlen Hl.
  - destruct lines; [|discriminate]. simpl. rewrite Nat.add_0_r.
    destruct (vfrom (S f) i n ps input) as [[[b evs] r]|]; reflexivity.
  - destruct lines as [|l lines]; [discriminate|].
    inversion Hl as [|? ? (args & Ha) Hrest]; subst.
    simpl app. cbn [visit_from]. rewrite (visit_project_next f i n p l args _ Ha).
    rewrite (IH (S i) lines) by (simpl in Hlen; lia || exact Hrest).
    replace (S i + List.length pre) with (i + List.length (p :: pre)) by (simpl; lia).
    destruct (vfrom (S f) (i + List.length (p :: pre)) n ps input) as [[[b evs] r]|];
      reflexivity.
Qed.

(** At the end of standard input [ReadString] keeps returning [""], and
    a blank line only re-prompts: with a project to visit and only blank
    or white-space lines left, [visitProjects] never returns, whatever
    number of rounds it is given. *)
Theorem visitProjects_blank_input_never_returns (fuel : nat)
    (projects : list ProjectStatus) (input : list string) :
  projects <> [] ->
  Forall (fun l => Fields (TrimSpace (ToLower l)) = []) input ->
  visitProjects PlainOpen filepath_Base fuel projects input = None.
Proof.
  intros Hne Hin. destruct projects as [|p ps]; [contradiction|].
  unfold visitProjects. cbn [visit_from].
  rewrite visit_project_blank by exact Hin. reflexivity.
Qed.

(** One ["n"] line per project (any case, surrounding white space and
    extra words ignored) walks every project in order: each gets one
    prompt [Project k/n: name], the walk ends without a panic, and the
    lines after those are left unread. *)
Theorem visitProjects_next_walks_all (f : nat) (projects : list ProjectStatus)
    (lines rest : list string) :
  List.length lines = List.length projects ->
  Forall (fun l => exists args, Fields (TrimSpace (ToLower l)) = "n" :: args) lines ->
  visitProjects PlainOpen filepath_Base (S f) projects (app lines rest) =
  Some (false, prompts 0 (List.length projects) projects, rest).
Proof.
  intros Hlen Hl. unfold visitProjects.
  pose proof (visit_from_next f 0 (List.length projects) projects [] lines rest Hlen Hl) as H.
  rewrite app_nil_r in H. rewrite H. cbn [visit_from]. rewrite app_nil_r. reflexivity.
Qed.

(** A ["q"] line after [k] ["n"] lines ends the walk at project [k + 1]:
    the projects after it are never prompted for. *)
Theorem visitProjects_quit_stops (f : nat) (pre post : list ProjectStatus) (p : ProjectStatus)
    (lines rest : list string) (q : string) (args : list string) :
  List.length lines = List.length pre ->
  Forall (fun l => exists args, Fields (TrimSpace (ToLower l)) = "n" :: args) lines ->
  Fields (TrimSpace (ToLower q)) = "q" :: args ->
  visitProjects PlainOpen filepath_Base (S f) (app pre (p :: post)) (app lines (q :: rest)) =
  Some (false,
        app (prompts 0 (List.length (app pre (p :: post))) pre)
            [ev_Prompt (List.length pre + 1) (List.length (app pre (p :: post)))
               (filepath_Base (Path p))],
        rest).
Proof.
  intros Hlen Hl Hq. unfold visitProjects.
  rewrite (visit_from_next f 0 _ pre (p :: post) lines (q :: rest) Hlen Hl).
  cbn [visit_from visit_project ReadString]. rewrite Hq. reflexivity.
Qed.

(** The ["s"] command ignores the errors of [git.PlainOpen] and
    [repo.Worktree]: when the project's path does not open as a
    repository, the walk ends in a nil-pointer panic at that project. *)
Theorem visitProjects_status_panics (f : nat) (pre post : list ProjectStatus) (p : ProjectStatus)
    (lines rest : list string) (s : string) (args : list string) (err : error) :
  List.length lines = List.length pre ->
  Forall (fun l => exists args, Fields (TrimSpace (ToLower l)) = "n" :: args) lines ->
  Fields (TrimSpace (ToLower s)) = "s" :: args ->
  PlainOpen (Path p) = Err err ->
  visitProjects PlainOpen filepath_Base (S f) (app pre (p :: post)) (app lines (s :: rest)) =
  Some (true,
        app (prompts 0 (List.length (app pre (p :: post))) pre)
            [ev_Prompt (List.length pre + 1) (List.length (app pre (p :: post)))
               (filepath_Base (Path p))],
        rest).
Proof.
  intros Hlen Hl Hs Hp. unfold visitProjects.
  rewrite (visit_from_next f 0 _ pre (p :: post) lines (s :: rest) Hlen Hl).
  cbn [visit_from visit_project ReadString]. rewrite Hs. simpl String.eqb.
  cbv iota. rewrite Hp. reflexivity.
Qed.
End VisitFacts.

(* ------------------------------------------------------------------ *)
(** ** Display of the scan's results *)

Lemma displayProjectStatus_unclean (filepath_Base : string -> string) (p : ProjectStatus) :
  Clean p = false -> exists line, displayProjectStatus filepath_Base p = Some line.
Proof.
  unfold Clean, displayProjectStatus. intros Hc.
  assert (Hne : forall e c, last_char e = Some c -> c <> " "%char ->
                forall x, String.eqb (x ++ e) (Path p ++ ": ") = false).
  { intros e c He Hcs x. apply String.eqb_neq. intros H.
    apply (f_equal last_char) in H. rewrite !last_char_app, He in H. simpl in H.
    congruence. }
  destruct (IsDirty p), (HasStash p), (Upstreamed p); try discriminate; simpl;
    rewrite ?Hne with (c := ascii_of_nat 167) by (reflexivity || discriminate);
    rewrite ?Hne with (c := ascii_of_nat 143) by (reflexivity || discriminate);
    rewrite ?Hne with (c := ascii_of_nat 164) by (reflexivity || discriminate);
    simpl; eexists; reflexivity.
Qed.

(** [run] prints a status line for every project the scan yields: the
    yielded projects are the non-clean ones, and for those
    [displayProjectStatus] always adds an emoji, so the line never
    equals [project.Path + ": "] and is never suppressed. *)
Theorem run_displays_every_visited
    (PlainOpen : string -> result Repository) (stash_exists : string -> bool)
    (filepath_IsAbs : string -> bool) (filepath_Abs : string -> string)
    (filepath_Join : string -> string -> string) (filepath_Clean : string -> string)
    (filepath_Base : string -> string)
    (time_Parse : string -> option Z) (time_Now : Z) (showChanges : bool)
    (ignoreConfig : option IgnoreConfig) (scanPath : string)
    (concurrency : nat) (paths : list string) (st : ScanState) (q : ProjectStatus) :
  scan_reach (worker PlainOpen stash_exists filepath_IsAbs filepath_Abs filepath_Join
                filepath_Clean time_Parse time_Now showChanges ignoreConfig scanPath)
    concurrency (scan_init paths) st ->
  In q (visited st) ->
  exists line, displayProjectStatus filepath_Base q = Some line.
Proof.
  intros Hr Hq.
  destruct (visited_Path PlainOpen stash_exists filepath_IsAbs filepath_Abs filepath_Join
              filepath_Clean time_Parse time_Now showChanges ignoreConfig scanPath
              concurrency paths st q Hr Hq) as (p & _ & _ & _ & _ & Hc).
  apply displayProjectStatus_unclean, Hc.
Qed.

(* ------------------------------------------------------------------ *)
(** ** Termination of the scan *)

(** With a semaphore of capacity at least one, [run]'s scan always
    ends: every interleaving of the feeder, the workers and the consumer
    is finite, and when no goroutine can move any more the consumer has
    waited for every directory, each worker has set [done], and the
    projects collected are the successful non-clean ones. *)
Theorem run_scan_completes (eval : string -> repoResult) (concurrency : nat)
    (paths : list string) (st : ScanState) :
  0 < concurrency ->
  scan_reach eval concurrency (scan_init paths) st ->
  Acc (fun b a => scan_step eval concurrency a b) st /\
  ((forall st', ~ scan_step eval concurrency st st') ->
   remaining st = [] /\ visited st = expected eval paths /\
   (forall p, In p paths -> In p (finished st))).
Proof.
  intros Hc Hr. split; [apply scan_terminates|].
  intros Hstuck.
  assert (Hrem : remaining st = []).
  { destruct (remaining st) eqn:E; [reflexivity|].
    destruct (scan_progress eval concurrency paths st Hc Hr) as (st' & Hs);
      [rewrite E; discriminate|].
    exfalso. exact (Hstuck st' Hs). }
  destruct (scan_final eval concurrency paths st Hr Hrem) as (Hv & Hf).
  split; [exact Hrem|]. split; [exact Hv | exact Hf].
Qed.

(** With [--concurrency 0] the channel [sem] is unbuffered: the feeder's
    first send waits for a receive that only a started worker would do,
    and no worker starts.  With at least one directory to scan, no
    goroutine can move from the start while the consumer waits for that
    directory: the run deadlocks. *)
Theorem run_zero_concurrency_deadlocks (eval : string -> repoResult) (paths : list string) :
  paths <> [] ->
  remaining (scan_init paths) <> [] /\
  forall st', ~ scan_step eval 0 (scan_init paths) st'.
Proof.
  intros Hne. split; [exact Hne|].
  intros st' Hs. unfold scan_init in Hs.
  inversion Hs; subst.
  - simpl in *. lia.
  - destruct r1; discriminate.
  - destruct s1; discriminate.
  - destruct l1; discriminate.
  - contradiction.
Qed.

(* ------------------------------------------------------------------ *)
(** ** Instances at concrete inputs *)

Lemma parseSnoozeDuration_numeral_std_unit_witness :
  parseSnoozeDuration "90m" = Ok (90 * Minute)%Z.
Proof.
  apply (parseSnoozeDuration_numeral_std_unit "90" "m" Minute).
  - discriminate.
  - reflexivity.
  - simpl. repeat (first [left; reflexivity | right]).
  - apply Z.leb_le. vm_compute. reflexivity.
Defined.

Lemma parseSnoozeDuration_numeral_day_unit_witness :
  parseSnoozeDuration "106752d" = Ok (wrap64 (Hour * 24 * 106752)) /\
  (wrap64 (Hour * 24 * 106752) < 0)%Z.
Proof.
  split.
  - apply (proj1 (parseSnoozeDuration_numeral_day_unit "106752" "d" 24
                    ltac:(discriminate) eq_refl ltac:(simpl; left; reflexivity))).
    apply Z.leb_le. vm_compute. reflexivity.
  - apply Z.ltb_lt. vm_compute. reflexivity.
Defined.

Lemma SnoozeCheck_updates_first_match_witness :
  SnoozeCheck (ex_Load (Some (mkIgnoreConfig [ex_entry "/s/q" ex_past; ex_entry "/s/r" "";
                                              ex_entry "/s/r" ex_past])))
    ex_Abs ex_Rel ex_until ex_dirty_project "1h" "stash" "/s" =
  WriteConfig (mkIgnoreConfig [ex_entry "/s/q" ex_past; mkRepoEntry "/s/r" (mkSnooze "" ex_future "");
                               ex_entry "/s/r" ex_past]).
Proof.
  rewrite (SnoozeCheck_updates_first_match
             (ex_Load (Some (mkIgnoreConfig [ex_entry "/s/q" ex_past; ex_entry "/s/r" "";
                                             ex_entry "/s/r" ex_past])))
             ex_Abs ex_Rel ex_until ex_dirty_project "1h" "stash" "/s"
             (mkIgnoreConfig [ex_entry "/s/q" ex_past; ex_entry "/s/r" ""; ex_entry "/s/r" ex_past])
             Hour [ex_entry "/s/q" ex_past] [ex_entry "/s/r" ex_past] (ex_entry "/s/r" "")).
  - vm_compute. reflexivity.
  - reflexivity.
  - simpl. right. left. reflexivity.
  - vm_compute. reflexivity.
  - reflexivity.
  - simpl. intros x [<- | []]. discriminate.
  - reflexivity.
Defined.

Lemma SnoozeCheck_appends_entry_witness :
  SnoozeCheck (ex_Load (Some (mkIgnoreConfig [ex_entry "/s/q" ex_past])))
    ex_Abs ex_Rel ex_until ex_dirty_project "2d" "all" "/s" =
  WriteConfig (mkIgnoreConfig [ex_entry "/s/q" ex_past;
                               mkRepoEntry "r" (mkSnooze ex_future ex_future ex_future)]).
Proof.
  rewrite (SnoozeCheck_appends_entry
             (ex_Load (Some (mkIgnoreConfig [ex_entry "/s/q" ex_past])))
             ex_Abs ex_Rel ex_until ex_dirty_project "2d" "all" "/s"
             (mkIgnoreConfig [ex_entry "/s/q" ex_past]) (48 * Hour)%Z).
  - vm_compute. reflexivity.
  - reflexivity.
  - simpl. right. right. right. left. reflexivity.
  - vm_compute. reflexivity.
  - simpl. intros x [<- | []]. discriminate.
Defined.

Lemma SnoozeCheck_unreadable_config_witness :
  SnoozeCheck (ex_Load None) ex_Abs ex_Rel ex_until ex_dirty_project "3w" "upstream" "/s" =
  WriteConfig (mkIgnoreConfig [mkRepoEntry "r" (mkSnooze "" "" ex_future)]).
Proof.
  rewrite (SnoozeCheck_unreadable_config (ex_Load None) ex_Abs ex_Rel ex_until
             ex_dirty_project "3w" "upstream" "/s"
             (ErrorString "open /s/.goriignore.cue: no such file or directory") (504 * Hour)%Z).
  - vm_compute. reflexivity.
  - reflexivity.
  - simpl. right. right. left. reflexivity.
  - vm_compute. reflexivity.
Defined.

Lemma SnoozeCheck_repeat_appends_witness :
  exists e1 e2,
    Repos (mkIgnoreConfig [mkRepoEntry "r" (mkSnooze "" ex_future "");
                           mkRepoEntry "r" (mkSnooze ex_future "" "")]) = [e1; e2] /\
    entry_Path e1 = "r" /\ entry_Path e2 = "r".
Proof.
  destruct (SnoozeCheck_repeat_appends
              (ex_Load (Some (mkIgnoreConfig [])))
              (ex_Load (Some (mkIgnoreConfig [mkRepoEntry "r" (mkSnooze "" ex_future "")])))
              ex_Abs ex_Rel ex_until ex_dirty_project "1h" "stash" "2h" "dirty" "/s"
              (mkIgnoreConfig [])
              (mkIgnoreConfig [mkRepoEntry "r" (mkSnooze "" ex_future "")])
              (mkIgnoreConfig [mkRepoEntry "r" (mkSnooze "" ex_future "");
                               mkRepoEntry "r" (mkSnooze ex_future "" "")]))
    as (e1 & e2 & He & H1 & H2).
  - reflexivity.
  - intros x [].
  - vm_compute. discriminate.
  - vm_compute. reflexivity.
  - reflexivity.
  - vm_compute. reflexivity.
  - exists e1, e2. vm_compute in H1, H2. split; [exact He|]. split; [exact H1 | exact H2].
Defined.

Lemma SnoozeCheck_all_then_ApplySnooze_witness :
  Clean (ApplySnooze ex_IsAbs ex_Abs ex_Join ex_Clean ex_Parse ex_Now "/s/r"
           (NewProject "/s/r" true true false)
           (Some (mkIgnoreConfig [mkRepoEntry "r" (mkSnooze ex_future ex_future ex_future)]))
           "/s") = true.
Proof.
  apply (SnoozeCheck_all_then_ApplySnooze (ex_Load (Some (mkIgnoreConfig [])))
           ex_IsAbs ex_Abs ex_Join ex_Clean ex_Rel ex_Parse ex_Now ex_until
           ex_dirty_project (NewProject "/s/r" true true false) "1w" "/s" "/s/r"
           (mkIgnoreConfig [])
           (mkIgnoreConfig [mkRepoEntry "r" (mkSnooze ex_future ex_future ex_future)])
           (168 * Hour)%Z 10%Z).
  - reflexivity.
  - intros x [].
  - vm_compute. reflexivity.
  - vm_compute. reflexivity.
  - vm_compute. reflexivity.
  - vm_compute. discriminate.
  - vm_compute. reflexivity.
  - unfold ex_Now. lia.
Defined.

Lemma visitProjects_blank_input_never_returns_witness :
  visitProjects (ex_PlainOpen "") ex_Base 50 ex_visit_projects
    [String "010"%char ""; String " "%char (String "010"%char "")] = None.
Proof.
  apply visitProjects_blank_input_never_returns.
  - discriminate.
  - repeat constructor.
Defined.

Lemma visitProjects_next_walks_all_witness :
  visitProjects (ex_PlainOpen "") ex_Base 5 ex_visit_projects ["n"; " N  later"; "q"] =
  Some (false, [ev_Prompt 1 2 "a"; ev_Prompt 2 2 "b"], ["q"]).
Proof.
  apply (visitProjects_next_walks_all (ex_PlainOpen "") ex_Base 4 ex_visit_projects
           ["n"; " N  later"] ["q"]).
  - reflexivity.
  - constructor; [exists []; vm_compute; reflexivity|].
    constructor; [exists ["later"]; vm_compute; reflexivity|].
    constructor.
Defined.

Lemma visitProjects_quit_stops_witness :
  visitProjects (ex_PlainOpen "") ex_Base 5 ex_visit_projects ["n"; "Q"; "n"] =
  Some (false, [ev_Prompt 1 2 "a"; ev_Prompt 2 2 "b"], ["n"]).
Proof.
  apply (visitProjects_quit_stops (ex_PlainOpen "") ex_Base 4
           [NewProject "/s/a" true false true] [] (NewProject "/s/b" false true true)
           ["n"] ["n"] "Q" []).
  - reflexivity.
  - constructor; [exists []; vm_compute; reflexivity | constructor].
  - vm_compute. reflexivity.
Defined.

Lemma visitProjects_status_panics_witness :
  visitProjects (ex_PlainOpen "/s/b") ex_Base 5 ex_visit_projects ["n"; "s"; "n"] =
  Some (true, [ev_Prompt 1 2 "a"; ev_Prompt 2 2 "b"], ["n"]).
Proof.
  apply (visitProjects_status_panics (ex_PlainOpen "/s/b") ex_Base 4
           [NewProject "/s/a" true false true] [] (NewProject "/s/b" false true true)
           ["n"] ["n"] "s" [] (ErrorString "repository does not exist")).
  - reflexivity.
  - constructor; [exists []; vm_compute; reflexivity | constructor].
  - vm_compute. reflexivity.
  - vm_compute. reflexivity.
Defined.

Lemma run_displays_every_visited_witness :
  exists line, displayProjectStatus ex_Base (NewProject "/s/a" false false false) = Some line.
Proof.
  apply (run_displays_every_visited (ex_PlainOpen "") ex_no_stash ex_IsAbs ex_Abs ex_Join
           ex_Clean ex_Base ex_Parse ex_Now false None "/s" 3 ex_paths (ex_scan "")).
  - apply (exec_schedule_reach (ex_worker "") 3 (scan_init ex_paths) ex_schedule
             (scan_init ex_paths)); [apply reach_refl | vm_compute; reflexivity].
  - vm_compute. left. reflexivity.
Defined.

Lemma run_scan_completes_witness :
  Acc (fun b a => scan_step (ex_worker "") 3 a b) (ex_scan "").
Proof.
  apply (run_scan_completes (ex_worker "") 3 ex_paths (ex_scan "")).
  - lia.
  - apply (exec_schedule_reach (ex_worker "") 3 (scan_init ex_paths) ex_schedule
             (scan_init ex_paths)); [apply reach_refl | vm_compute; reflexivity].
Defined.

Lemma run_zero_concurrency_deadlocks_witness :
  remaining (scan_init ex_paths) <> [] /\
  forall st', ~ scan_step (ex_worker "") 0 (scan_init ex_paths) st'.
Proof.
  apply run_zero_concurrency_deadlocks. vm_compute. discriminate.
Defined.
